(** * Dependency wiring by memoized resolvers

    A shallow embedding of the no-framework dependency-injection example
    ([diy-roll-your-own/factory-inside-class.ts]) and of the hand-written
    [memoize] of [common.ts], with the properties the specification states
    about singleton resolution, overriding and error behaviour.

    JavaScript runs one call to completion before the next one starts, so
    a call is a function from the state before it to its outcome and the
    state after it. *)

From Stdlib Require Import List String ZArith Lia Bool DecimalString.
Import ListNotations.
Open Scope string_scope.
Open Scope list_scope.

Set Implicit Arguments.

(** ** Values, outcomes and the state-passing monad *)

Definition loc := nat.

(** What a column of a result row holds. *)
Inductive atom : Type :=
| Num (n : Z)
| Str (s : string).

(** [{[columnName: string]: any}]: a row of a query result, compared
    structurally (jest's [toEqual]). *)
Definition row := list (string * atom).

(** The values a resolver can produce.  [VRef] is an object reference:
    two references are identical ([===], jest's [toBe]) exactly when their
    locations are equal. *)
Inductive value : Type :=
| VUndefined
| VNull
| VNum (n : Z)
| VStr (s : string)
| VRow (r : row)
| VRef (l : loc).

(** [v === undefined] *)
Definition is_undefined (v : value) : bool :=
  match v with
  | VUndefined => true
  | _ => false
  end.

(** How a call ends: it returns, it throws, or it exhausts the call stack
    (the budget of nested calls of the recursive model of section Cycle). *)
Inductive outcome (A : Type) : Type :=
| Ret (a : A)
| Throw (e : value)
| Overflow.

Arguments Ret {A} a.
Arguments Throw {A} e.
Arguments Overflow {A}.

Definition M (S A : Type) : Type := S -> outcome A * S.

Definition ret {S A : Type} (a : A) : M S A := fun s => (Ret a, s).

Definition bind {S A B : Type} (m : M S A) (k : A -> M S B) : M S B :=
  fun s =>
    match m s with
    | (Ret a, s1) => k a s1
    | (Throw e, s1) => (Throw e, s1)
    | (Overflow, s1) => (Overflow, s1)
    end.

Declare Scope wiring_scope.
Delimit Scope wiring_scope with wiring.
Notation "x <- m ;; k" := (bind m (fun x => k))
  (at level 61, m at next level, right associativity) : wiring_scope.
Open Scope wiring_scope.

(** ** [memoize] *)

(** The variable [cached] that the closure returned by [memoize] captures
    is a cell of the state: [rd] reads it, [wr] assigns it. *)
Record cell (S : Type) : Type := Cell {
  rd : S -> value;
  wr : value -> S -> S
}.

(**
<<
export function memoize<T>(factory: () => T): () => T {
    let cached: T
    return () => {
        if (cached === undefined) cached = factory()
        return cached
    }
}
>>
    [memoize cached factory] is the arrow function that is returned.  When
    [factory] does not return, the assignment does not happen. *)
Definition memoize {S : Type} (cached : cell S) (factory : M S value)
  : M S value :=
  fun s =>
    if is_undefined (rd cached s) then
      match factory s with
      | (Ret v, s1) => let s2 := wr cached v s1 in (Ret (rd cached s2), s2)
      | (Throw e, s1) => (Throw e, s1)
      | (Overflow, s1) => (Overflow, s1)
      end
    else (Ret (rd cached s), s).

(** *** One closure over a world it cannot see into

    A factory that does not call back into its own resolver works on a
    world [W]; the closure adds its private cell in front of it. *)
Section Closure.
Variable W : Type.

Definition own : cell (value * W) :=
  {| rd := fun s => fst s; wr := fun v s => (v, snd s) |}.

Definition lift (f : M W value) : M (value * W) value :=
  fun s => let (r, w) := f (snd s) in (r, (fst s, w)).

(** Evaluating [memoize(factory)] in world [w]: [let cached: T] declares
    the variable without a value and the arrow function is returned. *)
Definition register (factory : M W value) (w : W) : value * W :=
  (VUndefined, w).

(** Calling the function that [memoize(factory)] returned. *)
Definition resolve (factory : M W value) : M (value * W) value :=
  memoize own (lift factory).
End Closure.

(** A spy around a factory: it counts the invocations in the world, as
    [jest.fn] does. *)
Definition spy {W : Type} (f : M W value) : M (nat * W) value :=
  fun s => let (r, w) := f (snd s) in (r, (S (fst s), w)).

Definition invocations {W : Type} (s : value * (nat * W)) : nat :=
  fst (snd s).

(** A factory that fails the first time and works the second time: the
    world is the flag that tells whether it has been tried. *)
Definition flaky : M bool value :=
  fun tried => if tried then (Ret (VNum 7), true)
               else (Throw (VStr "not ready"), true).

(** A factory that has nothing to return, and one that returns a number. *)
Definition nothing : M unit value := fun w => (Ret VUndefined, w).
Definition zero : M unit value := fun w => (Ret (VNum 0), w).

(** [n] calls in a row: the outcomes in order, and the state at the end. *)
Fixpoint calls {S : Type} (m : M S value) (n : nat) (s : S)
  : list (outcome value) * S :=
  match n with
  | O => ([], s)
  | S k => let (r, s1) := m s in
           let (rs, s2) := calls m k s1 in
           (r :: rs, s2)
  end.

(** ** The module [factory-inside-class.ts]

    The [memoize] that the module applies to its three factories is the
    one above, which [common.ts] introduces as an implementation of
    lodash's [memoize]. *)

Module FactoryInsideClass.

(** The objects the module and its tests put on the heap. *)
Inductive obj : Type :=
| ODatabase (query : string -> list row)
| ORepository (db : value)
| OService (repository : value)
| OMockRepository (get : Z -> value).

Inductive token : Type := Database | Repository | Service.

(** What a resolver property holds: the closure that [memoize] returned
    when the module was loaded, or a function assigned later from outside
    the module (the tests assign arrow functions that only build or
    return objects). *)
Inductive resolver : Type :=
| Memoized
| Arrow (body : M (list obj) value).

(** The state of the loaded module: the heap, the three resolver
    properties [dependencies.getDb], [Repository.getInstance] and
    [Service.getInstance], and the [cached] variable of each of the three
    closures built by [memoize]. *)
Record world : Type := World {
  heap : list obj;
  slotDb : resolver;
  slotRepository : resolver;
  slotService : resolver;
  cachedDb : value;
  cachedRepository : value;
  cachedService : value
}.

Definition with_heap (h : list obj) (s : world) : world :=
  World h (slotDb s) (slotRepository s) (slotService s)
        (cachedDb s) (cachedRepository s) (cachedService s).

Definition slot (t : token) (s : world) : resolver :=
  match t with
  | Database => slotDb s
  | Repository => slotRepository s
  | Service => slotService s
  end.

Definition cached (t : token) : cell world :=
  match t with
  | Database =>
      {| rd := cachedDb;
         wr := fun v s => World (heap s) (slotDb s) (slotRepository s)
                            (slotService s) v (cachedRepository s)
                            (cachedService s) |}
  | Repository =>
      {| rd := cachedRepository;
         wr := fun v s => World (heap s) (slotDb s) (slotRepository s)
                            (slotService s) (cachedDb s) v
                            (cachedService s) |}
  | Service =>
      {| rd := cachedService;
         wr := fun v s => World (heap s) (slotDb s) (slotRepository s)
                            (slotService s) (cachedDb s)
                            (cachedRepository s) v |}
  end.

(** [new C(...)] and object literals: the new object gets the next free
    location. *)
Definition alloc_in (o : obj) : M (list obj) value :=
  fun h => (Ret (VRef (List.length h)), h ++ [o]).

Definition on_heap {A : Type} (body : M (list obj) A) : M world A :=
  fun s => let (r, h) := body (heap s) in (r, with_heap h s).

Definition alloc (o : obj) : M world value := on_heap (alloc_in o).

(** [common.ts]: the query of the placeholder database. *)
Definition realQuery (queryString : string) : list row :=
  [[("id", Num 1); ("name", Str "test")]].

Definition getPlaceholderForRealDB : M world value :=
  alloc (ODatabase realQuery).

(** Calling a resolver property: whatever function it holds now. *)
Definition call (t : token) (original : M world value) : M world value :=
  fun s =>
    match slot t s with
    | Memoized => memoize (cached t) original s
    | Arrow body => on_heap body s
    end.

(** [getDb: memoize(() => getPlaceholderForRealDB())] *)
Definition dependencies_getDb : M world value :=
  call Database getPlaceholderForRealDB.

(** [constructor(private db = dependencies.getDb())], called without an
    argument. *)
Definition new_Repository : M world value :=
  db <- dependencies_getDb ;; alloc (ORepository db).

(** [static readonly getInstance = memoize(() => new Repository())] *)
Definition Repository_getInstance : M world value :=
  call Repository new_Repository.

(** [constructor(private repository = Repository.getInstance())] *)
Definition new_Service : M world value :=
  repository <- Repository_getInstance ;; alloc (OService repository).

(** [static readonly getInstance = memoize(() => new Service())] *)
Definition Service_getInstance : M world value :=
  call Service new_Service.

Definition resolve_token (t : token) : M world value :=
  match t with
  | Database => dependencies_getDb
  | Repository => Repository_getInstance
  | Service => Service_getInstance
  end.

(** The factory that was given to [memoize] for each token. *)
Definition original (t : token) : M world value :=
  match t with
  | Database => getPlaceholderForRealDB
  | Repository => new_Repository
  | Service => new_Service
  end.

(** The state right after the module is loaded on heap [h]: the three
    properties hold the closures [memoize] returned, and none of their
    [cached] variables has a value yet. *)
Definition load (h : list obj) : world :=
  World h Memoized Memoized Memoized VUndefined VUndefined VUndefined.

(** Assigning a function to a resolver property, as the tests do:
    [dependencies.getDb = () => ...], [singleton.getInstance = () => ...]. *)
Definition override (t : token) (f : M (list obj) value) (s : world)
  : world :=
  match t with
  | Database =>
      World (heap s) (Arrow f) (slotRepository s) (slotService s)
            (cachedDb s) (cachedRepository s) (cachedService s)
  | Repository =>
      World (heap s) (slotDb s) (Arrow f) (slotService s)
            (cachedDb s) (cachedRepository s) (cachedService s)
  | Service =>
      World (heap s) (slotDb s) (slotRepository s) (Arrow f)
            (cachedDb s) (cachedRepository s) (cachedService s)
  end.

(** *** Methods *)

(** What calling a method of something that has no such method throws. *)
Definition typeError : value := VStr "TypeError".

(** The template literal [`SELECT * FROM tableA WHERE id = ${id}}`]; the
    identifiers are taken to be integers. *)
Definition sql (id : Z) : string :=
  ("SELECT * FROM tableA WHERE id = "
     ++ NilZero.string_of_int (Z.to_int id) ++ "}")%string.

(** [rows[0]]: reading index 0 of an array never throws; an empty array
    gives [undefined]. *)
Definition first_row (rows : list row) : value :=
  match nth_error rows 0 with
  | Some r => VRow r
  | None => VUndefined
  end.

(** [db.query(queryString)] *)
Definition Database_query (h : list obj) (db : value)
           (queryString : string) : outcome (list row) :=
  match db with
  | VRef l =>
      match nth_error h l with
      | Some (ODatabase query) => Ret (query queryString)
      | _ => Throw typeError
      end
  | _ => Throw typeError
  end.

(** [Repository.get]: [return this.db.query(...)[0]] *)
Definition Repository_get (h : list obj) (this : value) (id : Z)
  : outcome value :=
  match this with
  | VRef l =>
      match nth_error h l with
      | Some (ORepository db) =>
          match Database_query h db (sql id) with
          | Ret rows => Ret (first_row rows)
          | Throw e => Throw e
          | Overflow => Overflow
          end
      | _ => Throw typeError
      end
  | _ => Throw typeError
  end.

(** [repository.get(id)] on whatever object the reference points to: a
    [Repository], or the mock that a test put in its place. *)
Definition invoke_get (h : list obj) (repository : value) (id : Z)
  : outcome value :=
  match repository with
  | VRef l =>
      match nth_error h l with
      | Some (ORepository _) => Repository_get h repository id
      | Some (OMockRepository get) => Ret (get id)
      | _ => Throw typeError
      end
  | _ => Throw typeError
  end.

(** [Service.get]: [return this.repository.get(id)], on a [Service]. *)
Definition Service_get (h : list obj) (this : value) (id : Z)
  : outcome value :=
  match this with
  | VRef l =>
      match nth_error h l with
      | Some (OService repository) => invoke_get h repository id
      | _ => Throw typeError
      end
  | _ => Throw typeError
  end.

(** [instance.get(id)] as a step of a test. *)
Definition get_of (this : value) (id : Z) : M world value :=
  fun s => (Service_get (heap s) this id, s).

(** *** The tests of the module *)

Definition testRow : row := [("id", Num 1); ("name", Str "test")].
Definition mockedRow : row := [("id", Num 2); ("name", Str "mocked")].

(** [() => ({ query: () => [{ id: 2, name: 'mocked' }] })] *)
Definition mockedDb : M (list obj) value :=
  alloc_in (ODatabase (fun _ => [mockedRow])).

(** "should use real instances when mocking is not employed" *)
Definition test_real (id : Z) : M world value :=
  serviceInstance <- Service_getInstance ;; get_of serviceInstance id.

(** "should allow mocking of the Database" *)
Definition test_mock_db (id : Z) : M world value :=
  fun s => test_real id (override Database mockedDb s).

Definition token_eqb (a b : token) : bool :=
  match a, b with
  | Database, Database | Repository, Repository | Service, Service => true
  | _, _ => false
  end.

(** The resolver properties of two states hold the same functions. *)
Definition same_slots (s s1 : world) : Prop :=
  forall t, slot t s1 = slot t s.

(** The claim of override isolation, read on this module, whose only
    scope is the module itself: once a token is overridden, resolving it
    from the module still gives the instance it gave before. *)
Definition override_isolation : Prop :=
  forall (t : token) (f : M (list obj) value) (s s1 : world)
         (original : value),
    slot t s = Memoized ->
    resolve_token t s = (Ret original, s1) ->
    fst (resolve_token t (override t f s1)) = Ret original.

End FactoryInsideClass.

(** ** Classes that depend on each other

    Any number of classes written the way [Repository] and [Service] are:
<<
class C {
    static readonly getInstance = memoize(() => new C())
    constructor(private d1 = D1.getInstance(), ...) {}
}
>>
    A wiring gives, for each class, the classes whose [getInstance] its
    constructor calls, in the order of the parameters.  Nothing in the
    source keeps a set of the classes under construction. *)

Module Cycle.

Definition class := string.

(** The [cached] variable of every [getInstance], and the instances
    built so far: the class and the fields of each. *)
Record state : Type := State {
  cache : class -> value;
  instances : list (class * list value)
}.

Definition init : state := State (fun _ => VUndefined) [].

Definition cachedOf (c : class) : cell state :=
  {| rd := fun s => cache s c;
     wr := fun v s =>
             State (fun c' => if String.eqb c c' then v else cache s c')
                   (instances s) |}.

(** The body of [new C(...)] once the defaults are evaluated. *)
Definition construct (c : class) (fields : list value) : M state value :=
  fun s => (Ret (VRef (List.length (instances s))),
            State (cache s) (instances s ++ [(c, fields)])).

(** The default parameters, left to right. *)
Fixpoint defaults (getInstance : class -> M state value)
         (ds : list class) : M state (list value) :=
  match ds with
  | [] => ret []
  | d :: rest =>
      v <- getInstance d ;;
      vs <- defaults getInstance rest ;;
      ret (v :: vs)
  end.

(** [C.getInstance()] with at most [depth] calls of a [getInstance]
    nested in each other: one more exhausts the call stack. *)
Fixpoint getInstance (deps : class -> list class) (depth : nat)
         (c : class) : M state value :=
  match depth with
  | O => fun s => (Overflow, s)
  | S k =>
      memoize (cachedOf c)
              (fields <- defaults (getInstance deps k) (deps c) ;;
               construct c fields)
  end.

(** Two classes, each with the other as its only constructor default. *)
Definition xy (c : class) : list class :=
  if String.eqb c "X" then ["Y"]
  else if String.eqb c "Y" then ["X"]
  else [].

(** The wiring of [factory-inside-class.ts]. *)
Definition app (c : class) : list class :=
  if String.eqb c "Service" then ["Repository"]
  else if String.eqb c "Repository" then ["Database"]
  else [].

(** Neither of two classes has an instance in its [cached] variable. *)
Definition unresolved (X Y : class) (s : state) : Prop :=
  cache s X = VUndefined /\ cache s Y = VUndefined.

(** How a resolution can end while neither [X] nor [Y] has an instance:
    with the stack exhausted, or, when it is [clear] of the two classes,
    with a result.  Neither class has an instance afterwards. *)
Definition ends (X Y : class) (A : Type) (run : outcome A * state)
           (clear : Prop) : Prop :=
  (fst run = Overflow \/ (clear /\ exists a, fst run = Ret a)) /\
  unresolved X Y (snd run).

(** The claim of cycle detection, for a class [c] of a wiring: resolving
    it ends, at some depth of the stack, with a thrown error. *)
Definition detects_cycle (deps : class -> list class) (c : class) : Prop :=
  exists depth e s, getInstance deps depth c init = (Throw e, s).

End Cycle.

(** ** Sequences of resolutions on the module *)

Module Sessions.
Import FactoryInsideClass.

(** Where a token sits in the graph: the database at the bottom, the
    repository on it, the service on the repository. *)
Definition rank (t : token) : nat :=
  match t with
  | Database => 0
  | Repository => 1
  | Service => 2
  end.

(** Resolving tokens one after the other, as a test does. *)
Fixpoint resolve_each (ts : list token) : M world (list value) :=
  match ts with
  | [] => ret []
  | t :: rest =>
      v <- resolve_token t ;;
      vs <- resolve_each rest ;;
      ret (v :: vs)
  end.

(** The three objects of the graph when they are built on top of a heap
    [h]. *)
Definition graph (h : list obj) : list obj :=
  [ODatabase realQuery; ORepository (VRef (List.length h));
   OService (VRef (S (List.length h)))].

(** The module, loaded on [h], once the [n] lowest objects of the graph
    are built and cached. *)
Definition built (h : list obj) (n : nat) : world :=
  World (h ++ firstn n (graph h)) Memoized Memoized Memoized
        (if Nat.leb 1 n then VRef (List.length h) else VUndefined)
        (if Nat.leb 2 n then VRef (S (List.length h)) else VUndefined)
        (if Nat.leb 3 n then VRef (S (S (List.length h))) else VUndefined).

(** How much of the graph a sequence of resolutions asks for. *)
Definition reached (ts : list token) : nat :=
  fold_right (fun t n => Nat.max (S (rank t)) n) 0 ts.

(** [() => v], and what [jest.spyOn(...).mockReturnValue(v)] installs. *)
Definition returning (v : value) : M (list obj) value :=
  fun h => (Ret v, h).

End Sessions.

(** ** Wirings of any shape *)

Module Wiring.
Import Cycle.

(** [reach deps c e]: from [c], following constructor defaults zero or
    more times, one arrives at [e]. *)
Inductive reach (deps : class -> list class) : class -> class -> Prop :=
| reach_here (c : class) : reach deps c c
| reach_step (c d e : class) :
    In d (deps c) -> reach deps d e -> reach deps c e.

(** A class that needs itself, directly or through other classes. *)
Definition on_cycle (deps : class -> list class) (c : class) : Prop :=
  exists d, In d (deps c) /\ reach deps d c.

(** No class that needs itself has an instance in its [cached]. *)
Definition cycles_unresolved (deps : class -> list class) (s : state)
  : Prop :=
  forall c, on_cycle deps c -> cache s c = VUndefined.

(** How a resolution can end: with the stack exhausted, or, when it is
    [clear] of every cycle, with a result; no class on a cycle has an
    instance afterwards. *)
Definition finishes (deps : class -> list class) (A : Type)
           (run : outcome A * state) (clear : Prop) : Prop :=
  (fst run = Overflow \/ (clear /\ exists a, fst run = Ret a)) /\
  cycles_unresolved deps (snd run).

(** A program that calls [getInstance] of one class after the other, each
    with its own depth of stack left, whatever the calls return. *)
Fixpoint serve (deps : class -> list class) (requests : list (nat * class))
         (s : state) : state :=
  match requests with
  | [] => s
  | (depth, c) :: rest => serve deps rest (snd (getInstance deps depth c s))
  end.

(** The instances and the [cached] variables agree: an instance is the one
    its class has cached, its fields are what the classes it depends on
    have cached, and whatever is cached is an instance on the heap. *)
Definition wired (deps : class -> list class) (s : state) : Prop :=
  (forall i c fields,
      nth_error (instances s) i = Some (c, fields) ->
      cache s c = VRef i /\
      fields = map (cache s) (deps c) /\
      (forall d, In d (deps c) -> cache s d <> VUndefined)) /\
  (forall c, cache s c <> VUndefined ->
             exists i fields,
               cache s c = VRef i /\
               nth_error (instances s) i = Some (c, fields)).

(** Three classes in a ring, and four in a diamond. *)
Definition ring (c : class) : list class :=
  if String.eqb c "A" then ["B"]
  else if String.eqb c "B" then ["C"]
  else if String.eqb c "C" then ["A"]
  else [].

Definition diamond (c : class) : list class :=
  if String.eqb c "App" then ["Left"; "Right"]
  else if String.eqb c "Left" then ["Pool"]
  else if String.eqb c "Right" then ["Pool"]
  else [].

Definition diamond_height (c : class) : nat :=
  if String.eqb c "App" then 2
  else if String.eqb c "Left" then 1
  else if String.eqb c "Right" then 1
  else 0.

End Wiring.

(** ** The flashcard application

    The [Flashcard] model of the Ruby application and the card index of
    its first version.
<<
class Flashcard < ActiveRecord::Base
  def self.next_due
    self.where("review_due_at <= ?", Time.now).order(:review_due_at).first
  end

  def schedule_after_correct_guess
    self.review_due_at = Time.now + 1.day * (2 ** self.correct_guess_streak)
    self.correct_guess_streak += 1
    self.save
  end

  def schedule_after_incorrect_guess
    self.correct_guess_streak = 0
    self.review_due_at = Time.now + 1.hour
    self.save
  end
end
>>
    The table is the list of its rows.  A time is a number of seconds, on
    a clock without daylight-saving changes, so that [1.day] is 86400
    seconds wherever it is added; [now] is what [Time.now] reads.  The
    streak starts at 0 and is only ever reset or incremented, so it is a
    natural number. *)

Module RubyRecall.

Record flashcard : Type := Flashcard {
  id : nat;
  front : string;
  back : string;
  correct_guess_streak : nat;
  review_due_at : Z
}.

Definition day : Z := 86400.
Definition hour : Z := 3600.

(** [where("review_due_at <= ?", Time.now)] *)
Definition due (now : Z) (c : flashcard) : bool :=
  Z.leb (review_due_at c) now.

(** [order(:review_due_at).first]: a row with the least [review_due_at],
    [nil] when there is no row.  Of several rows with the least time the
    database may return any; here it is the first of them in the table. *)
Fixpoint earliest (rows : list flashcard) : option flashcard :=
  match rows with
  | [] => None
  | c :: rest =>
      match earliest rest with
      | Some m => if Z.ltb (review_due_at m) (review_due_at c)
                  then Some m else Some c
      | None => Some c
      end
  end.

Definition next_due (now : Z) (table : list flashcard) : option flashcard :=
  earliest (filter (due now) table).

(** The card as [schedule_after_correct_guess] leaves it: the due time is
    computed from the streak before the streak is incremented. *)
Definition schedule_after_correct_guess (now : Z) (c : flashcard)
  : flashcard :=
  Flashcard (id c) (front c) (back c)
            (S (correct_guess_streak c))
            (now + day * 2 ^ Z.of_nat (correct_guess_streak c))%Z.

Definition schedule_after_incorrect_guess (now : Z) (c : flashcard)
  : flashcard :=
  Flashcard (id c) (front c) (back c) 0 (now + hour)%Z.

(** [self.save]: the row of the card is replaced by the card. *)
Definition save (c : flashcard) (table : list flashcard) : list flashcard :=
  map (fun r => if Nat.eqb (id r) (id c) then c else r) table.

(** The end of a round of practice: the card is rescheduled according to
    the answer to "Did you guess it?" and saved. *)
Definition answer (now : Z) (guessed : bool) (c : flashcard)
           (table : list flashcard) : list flashcard :=
  save (if guessed then schedule_after_correct_guess now c
        else schedule_after_incorrect_guess now c) table.

(** One card through a history of guesses, each with the time at which it
    was made. *)
Definition replay (history : list (Z * bool)) (c : flashcard) : flashcard :=
  fold_left (fun (card : flashcard) (guess : Z * bool) =>
               if snd guess then schedule_after_correct_guess (fst guess) card
               else schedule_after_incorrect_guess (fst guess) card)
            history c.

(** One round of [PracticeDialog#run] on a stopped clock, for a user who
    has the back revealed: the next due card, if there is one, is
    rescheduled according to the answer. *)
Definition practice_round (now : Z) (guessed : bool)
           (table : list flashcard) : option (list flashcard) :=
  match next_due now table with
  | Some card => Some (answer now guessed card table)
  | None => None
  end.

(** [PracticeDialog#run] on a stopped clock: rounds are played, one for
    each answer the user has to give, until no card is due. *)
Fixpoint practice (now : Z) (answers : list bool) (table : list flashcard)
  : list flashcard :=
  match answers with
  | [] => table
  | guessed :: rest =>
      match practice_round now guessed table with
      | Some table1 => practice now rest table1
      | None => table
      end
  end.

(** The first version of the application, which walks through the cards:
<<
  current_card_index += 1
  if current_card_index >= flashcards.size
    current_card_index = 0
  end
>> *)
Definition next_index (size current_card_index : nat) : nat :=
  if Nat.leb size (current_card_index + 1) then 0
  else current_card_index + 1.

(** The index after [n] rounds, starting from the first card. *)
Fixpoint index_after (size n : nat) : nat :=
  match n with
  | O => 0
  | S k => next_index size (index_after size k)
  end.

End RubyRecall.

(** * Properties *)

(** ** [memoize] on any cell *)

Section MemoizeFacts.
Variable S : Type.
Variable c : cell S.
Variable factory : M S value.
Hypothesis rd_wr : forall v s, rd c (wr c v s) = v.

Lemma not_undefined (v : value) : is_undefined v = false <-> v <> VUndefined.
Proof.
  destruct v; simpl; split; intro H; try reflexivity; try discriminate.
  now contradiction H.
Qed.

(** A value that is in the cell is returned as it is, and nothing else
    happens. *)
Lemma memoize_hit (s : S) :
  rd c s <> VUndefined -> memoize c factory s = (Ret (rd c s), s).
Proof.
  intro H. apply not_undefined in H. unfold memoize. now rewrite H.
Qed.

Lemma memoize_miss_ret (s s1 : S) (v : value) :
  rd c s = VUndefined -> factory s = (Ret v, s1) ->
  memoize c factory s = (Ret v, wr c v s1).
Proof.
  intros Hu Hf. unfold memoize. rewrite Hu, Hf. simpl. now rewrite rd_wr.
Qed.

(** Whatever a call returned is returned again by the next call, which
    changes nothing, as long as it is not [undefined]. *)
Lemma memoize_stable (s s1 : S) (v : value) :
  memoize c factory s = (Ret v, s1) -> v <> VUndefined ->
  rd c s1 = v /\ memoize c factory s1 = (Ret v, s1).
Proof.
  intros H Hv. unfold memoize in H.
  destruct (is_undefined (rd c s)) eqn:Hu.
  - destruct (factory s) as [[v0 | e | ] s0]; try discriminate.
    simpl in H. rewrite rd_wr in H. inversion H; subst.
    rewrite rd_wr. split; [reflexivity |].
    rewrite memoize_hit; rewrite rd_wr; [reflexivity | assumption].
  - inversion H; subst. split; [reflexivity |].
    now apply memoize_hit.
Qed.
End MemoizeFacts.

Lemma calls_fixed (S : Type) (m : M S value) (s : S) (r : outcome value) :
  m s = (r, s) -> forall n, calls m n s = (repeat r n, s).
Proof.
  intros H n. induction n as [| n IH]; simpl; [reflexivity |].
  now rewrite H, IH.
Qed.

(** ** One closure and its factory *)

Section ClosureFacts.
Variable W : Type.
Variable factory : M W value.

Lemma own_rd_wr (v : value) (s : value * W) : rd (own W) (wr (own W) v s) = v.
Proof. reflexivity. Qed.

Lemma resolve_hit (v : value) (w : W) :
  v <> VUndefined -> resolve factory (v, w) = (Ret v, (v, w)).
Proof.
  intro H. unfold resolve.
  now rewrite (memoize_hit (own W) (lift factory) (v, w)).
Qed.

Lemma resolve_miss (w : W) :
  resolve factory (VUndefined, w) =
  match factory w with
  | (Ret v, w1) => (Ret v, (v, w1))
  | (Throw e, w1) => (Throw e, (VUndefined, w1))
  | (Overflow, w1) => (Overflow, (VUndefined, w1))
  end.
Proof.
  unfold resolve, memoize, lift. simpl.
  now destruct (factory w) as [[v | e | ] w1].
Qed.

Lemma calls_hit (v : value) (w : W) (n : nat) :
  v <> VUndefined ->
  calls (resolve factory) n (v, w) = (repeat (Ret v) n, (v, w)).
Proof. intro H. apply calls_fixed. now apply resolve_hit. Qed.
End ClosureFacts.

Lemma spy_step (W : Type) (factory : M W value) (k : nat) (w : W) :
  spy factory (k, w) = (fst (factory w), (S k, snd (factory w))).
Proof. unfold spy. simpl. now destruct (factory w). Qed.

(** After the first call returned a value other than [undefined], the
    factory has run once and never runs again. *)
Lemma resolve_once (W : Type) (factory : M W value) (w w1 : W) (v : value)
      (k n : nat) :
  factory w = (Ret v, w1) -> v <> VUndefined ->
  calls (resolve (spy factory)) (S n) (register (spy factory) (k, w)) =
  (repeat (Ret v) (S n), (v, (S k, w1))).
Proof.
  intros Hf Hv. unfold register. cbn [calls].
  rewrite resolve_miss, spy_step, Hf. cbn [fst snd].
  now rewrite calls_hit.
Qed.

(** A factory that always returns [undefined] runs at every call. *)
Lemma resolve_undefined_every_time (W : Type) (factory : M W value) :
  (forall w, fst (factory w) = Ret VUndefined) ->
  forall (n k : nat) (w : W),
    fst (calls (resolve (spy factory)) n (VUndefined, (k, w))) =
      repeat (Ret VUndefined) n /\
    fst (snd (calls (resolve (spy factory)) n (VUndefined, (k, w)))) =
      VUndefined /\
    invocations (snd (calls (resolve (spy factory)) n (VUndefined, (k, w)))) =
      k + n.
Proof.
  intros Hu n. induction n as [| n IH]; intros k w.
  - cbn. repeat split; lia.
  - cbn [calls]. rewrite resolve_miss, spy_step, (Hu w).
    destruct (calls (resolve (spy factory)) n
                (VUndefined, (S k, snd (factory w)))) as [rs s2] eqn:E.
    specialize (IH (S k) (snd (factory w))). rewrite E in IH.
    cbn [fst snd] in *. destruct IH as (IH1 & IH2 & IH3).
    repeat split.
    + now rewrite IH1.
    + assumption.
    + rewrite IH3. lia.
Qed.

(** ** The module *)

Import FactoryInsideClass.

Lemma cached_rd_wr (t : token) (v : value) (s : world) :
  rd (cached t) (wr (cached t) v s) = v.
Proof. now destruct t. Qed.

Lemma resolve_token_call (t : token) :
  resolve_token t = call t (original t).
Proof. now destruct t. Qed.

Lemma call_memoized (t : token) (f : M world value) (s : world) :
  slot t s = Memoized -> call t f s = memoize (cached t) f s.
Proof. intro H. unfold call. now rewrite H. Qed.

Lemma call_arrow (t : token) (f : M world value) (s : world)
      (body : M (list obj) value) :
  slot t s = Arrow body -> call t f s = on_heap body s.
Proof. intro H. unfold call. now rewrite H. Qed.

Lemma same_slots_refl (s : world) : same_slots s s.
Proof. now intro t. Qed.

Lemma same_slots_trans (s s1 s2 : world) :
  same_slots s s1 -> same_slots s1 s2 -> same_slots s s2.
Proof. intros H1 H2 t. now rewrite H2, H1. Qed.

Lemma on_heap_slots (A : Type) (body : M (list obj) A) (s s1 : world)
      (r : outcome A) :
  on_heap body s = (r, s1) -> same_slots s s1.
Proof.
  unfold on_heap. destruct (body (heap s)) as [r0 h]. intro H.
  inversion H; subst. now intros [].
Qed.

Lemma wr_slots (t : token) (v : value) (s : world) :
  same_slots s (wr (cached t) v s).
Proof. now destruct t; intros []. Qed.

Lemma memoize_slots (t : token) (f : M world value) :
  (forall s r s1, f s = (r, s1) -> same_slots s s1) ->
  forall s r s1, memoize (cached t) f s = (r, s1) -> same_slots s s1.
Proof.
  intros Hf s r s1. unfold memoize.
  destruct (is_undefined (rd (cached t) s)).
  - destruct (f s) as [[v | e | ] s0] eqn:E; intro H; inversion H; subst;
      try (now apply (Hf _ _ _ E)).
    eapply same_slots_trans; [apply (Hf _ _ _ E) | apply wr_slots].
  - intro H. inversion H; subst. apply same_slots_refl.
Qed.

Lemma call_slots (t : token) (f : M world value) :
  (forall s r s1, f s = (r, s1) -> same_slots s s1) ->
  forall s r s1, call t f s = (r, s1) -> same_slots s s1.
Proof.
  intros Hf s r s1. unfold call. destruct (slot t s).
  - now apply memoize_slots.
  - apply on_heap_slots.
Qed.

Lemma bind_slots (A B : Type) (m : M world A) (k : A -> M world B) :
  (forall s r s1, m s = (r, s1) -> same_slots s s1) ->
  (forall a s r s1, k a s = (r, s1) -> same_slots s s1) ->
  forall s r s1, bind m k s = (r, s1) -> same_slots s s1.
Proof.
  intros Hm Hk s r s1. unfold bind.
  destruct (m s) as [[a | e | ] s0] eqn:E; intro H.
  - eapply same_slots_trans; [apply (Hm _ _ _ E) | apply (Hk _ _ _ _ H)].
  - inversion H; subst. apply (Hm _ _ _ E).
  - inversion H; subst. apply (Hm _ _ _ E).
Qed.

Lemma alloc_slots (o : obj) (s s1 : world) (r : outcome value) :
  alloc o s = (r, s1) -> same_slots s s1.
Proof. apply on_heap_slots. Qed.

Lemma resolve_token_slots (t : token) (s s1 : world) (r : outcome value) :
  resolve_token t s = (r, s1) -> same_slots s s1.
Proof.
  assert (HD : forall s r s1, dependencies_getDb s = (r, s1) -> same_slots s s1).
  { apply call_slots. intros s0 r0 s2. apply alloc_slots. }
  assert (HR : forall s r s1,
             Repository_getInstance s = (r, s1) -> same_slots s s1).
  { apply call_slots. apply bind_slots; [exact HD |].
    intros a s0 r0 s2. apply alloc_slots. }
  destruct t; [apply HD | apply HR |].
  apply call_slots. apply bind_slots; [exact HR |].
  intros a s0 r0 s2. apply alloc_slots.
Qed.

(** What a factory of the module returns is a reference to the object it
    has just built. *)
Lemma original_ref (t : token) (s s1 : world) (v : value) :
  original t s = (Ret v, s1) -> exists l, v = VRef l.
Proof.
  destruct t; simpl.
  - unfold getPlaceholderForRealDB, alloc, on_heap, alloc_in.
    intro H. inversion H. eauto.
  - unfold new_Repository, bind.
    destruct (dependencies_getDb s) as [[db | e | ] s0]; try discriminate.
    unfold alloc, on_heap, alloc_in. intro H. inversion H. eauto.
  - unfold new_Service, bind.
    destruct (Repository_getInstance s) as [[db | e | ] s0]; try discriminate.
    unfold alloc, on_heap, alloc_in. intro H. inversion H. eauto.
Qed.

Lemma memoized_not_undefined (t : token) (s s1 : world) (v : value) :
  memoize (cached t) (original t) s = (Ret v, s1) -> v <> VUndefined.
Proof.
  unfold memoize. destruct (is_undefined (rd (cached t) s)) eqn:Hu.
  - destruct (original t s) as [[v0 | e | ] s0] eqn:E; try discriminate.
    simpl. rewrite cached_rd_wr. intro H. inversion H; subst.
    destruct (original_ref _ _ E) as [l ->]. discriminate.
  - intro H. inversion H; subst. now apply not_undefined.
Qed.

(** Once a memoized resolver of the module has returned, calling it again
    returns the same reference and changes nothing: not the heap, not a
    cell. *)
Lemma module_singleton (t : token) (s s1 : world) (v : value) :
  slot t s = Memoized ->
  resolve_token t s = (Ret v, s1) ->
  forall n, calls (resolve_token t) n s1 = (repeat (Ret v) n, s1).
Proof.
  intros Hs H. apply calls_fixed.
  pose proof (resolve_token_slots _ _ H t) as Hs1. rewrite Hs in Hs1.
  rewrite resolve_token_call in *.
  rewrite (call_memoized _ _ _ Hs) in H.
  rewrite (call_memoized _ _ _ Hs1).
  apply (memoize_stable (cached t) (original t) (cached_rd_wr t) _ H).
  apply (memoized_not_undefined _ _ H).
Qed.

(** *** Building the graph *)

(** The state after [Service.getInstance()] built a [Repository] and a
    [Service] on top of the database [db], from the state [s1] in which
    the database was obtained. *)
Lemma wire_service (s s1 : world) (db : value) :
  slotRepository s = Memoized -> slotService s = Memoized ->
  cachedRepository s = VUndefined -> cachedService s = VUndefined ->
  dependencies_getDb s = (Ret db, s1) ->
  Service_getInstance s =
  (Ret (VRef (S (List.length (heap s1)))),
   World (heap s1 ++ [ORepository db; OService (VRef (List.length (heap s1)))])
         (slotDb s1) Memoized Memoized
         (cachedDb s1) (VRef (List.length (heap s1)))
         (VRef (S (List.length (heap s1))))).
Proof.
  intros HsR HsS HcR HcS Hdb.
  pose proof (resolve_token_slots Database _ Hdb) as Hslots.
  pose proof (Hslots Repository) as HsR1. pose proof (Hslots Service) as HsS1.
  simpl in HsR1, HsS1. rewrite HsR in HsR1. rewrite HsS in HsS1.
  unfold Service_getInstance, call. simpl. rewrite HsS.
  unfold memoize. simpl. rewrite HcS. simpl.
  unfold new_Service, bind, Repository_getInstance, call. simpl. rewrite HsR.
  unfold memoize. simpl. rewrite HcR. simpl.
  unfold new_Repository, bind. rewrite Hdb.
  unfold alloc, on_heap, alloc_in, with_heap. simpl.
  rewrite HsR1, HsS1, length_app, <- app_assoc. simpl.
  replace (List.length (heap s1) + 1) with (S (List.length (heap s1))) by lia.
  reflexivity.
Qed.

Lemma nth_error_end (A : Type) (l : list A) (a : A) (rest : list A) :
  nth_error (l ++ a :: rest) (List.length l) = Some a.
Proof. rewrite nth_error_app2 by lia. now rewrite Nat.sub_diag. Qed.

Lemma nth_error_end1 (A : Type) (l : list A) (a b : A) (rest : list A) :
  nth_error (l ++ a :: b :: rest) (S (List.length l)) = Some b.
Proof.
  rewrite nth_error_app2 by lia.
  now replace (S (List.length l) - List.length l) with 1 by lia.
Qed.

Lemma Database_query_grow (h more : list obj) (db : value) (q : string)
      (rows : list row) :
  Database_query h db q = Ret rows ->
  Database_query (h ++ more) db q = Ret rows.
Proof.
  unfold Database_query. destruct db; try discriminate.
  destruct (nth_error h l) as [o |] eqn:E; try discriminate.
  rewrite nth_error_app1 by (apply nth_error_Some; congruence).
  now rewrite E.
Qed.

(** [get] on a [Service] that sits on a [Repository] that sits on [db]
    returns the first row of what [db] answers. *)
Lemma get_through (h : list obj) (db : value) (id : Z) (rows : list row) :
  Database_query h db (sql id) = Ret rows ->
  Service_get (h ++ [ORepository db; OService (VRef (List.length h))])
              (VRef (S (List.length h))) id = Ret (first_row rows).
Proof.
  intro Hq. unfold Service_get. rewrite nth_error_end1.
  unfold invoke_get. rewrite nth_error_end.
  unfold Repository_get. rewrite nth_error_end.
  now rewrite (Database_query_grow _ _ _ _ Hq).
Qed.

(** A test that resolves the service and asks it for a row gets the first
    row of the database that [dependencies.getDb()] hands out. *)
Lemma test_real_through (s s1 : world) (db : value) (id : Z)
      (rows : list row) :
  slotRepository s = Memoized -> slotService s = Memoized ->
  cachedRepository s = VUndefined -> cachedService s = VUndefined ->
  dependencies_getDb s = (Ret db, s1) ->
  Database_query (heap s1) db (sql id) = Ret rows ->
  fst (test_real id s) = Ret (first_row rows).
Proof.
  intros HsR HsS HcR HcS Hdb Hq. unfold test_real, bind.
  rewrite (wire_service _ HsR HsS HcR HcS Hdb).
  unfold get_of. simpl. now apply get_through.
Qed.

(** ** Mutually dependent classes *)

Section CycleFacts.
Import Cycle.
Variable deps : class -> list class.
Variables X Y : class.
Hypothesis X_needs_Y : In Y (deps X).
Hypothesis Y_needs_X : In X (deps Y).

Lemma defaults_ends (getInstance : class -> M state value) :
  (forall c s, unresolved X Y s ->
               ends X Y (getInstance c s) (c <> X /\ c <> Y)) ->
  forall ds s, unresolved X Y s ->
               ends X Y (defaults getInstance ds s) (~ In X ds /\ ~ In Y ds).
Proof.
  intros Hcall ds. induction ds as [| d rest IH]; intros s Hs.
  - split; [right | exact Hs]. simpl. split; [tauto | eauto].
  - cbn [defaults]. unfold bind at 1.
    destruct (Hcall d s Hs) as [Hd Hs1].
    destruct (getInstance d s) as [r s1]. cbn [fst snd] in *.
    destruct Hd as [-> | [[HdX HdY] [v ->]]].
    + split; [now left | exact Hs1].
    + unfold bind at 1. destruct (IH s1 Hs1) as [Hr Hs2].
      destruct (defaults getInstance rest s1) as [r2 s2].
      cbn [fst snd] in *.
      destruct Hr as [-> | [[HrX HrY] [vs ->]]].
      * split; [now left | exact Hs2].
      * split; [right | exact Hs2]. unfold ret. cbn [fst].
        split; [| eauto]. simpl. split; intros [E | E]; congruence || tauto.
Qed.

Lemma getInstance_ends (depth : nat) :
  forall c s, unresolved X Y s ->
              ends X Y (getInstance deps depth c s) (c <> X /\ c <> Y).
Proof.
  induction depth as [| k IH]; intros c s Hs.
  - split; [now left | exact Hs].
  - cbn [getInstance]. unfold memoize. cbn [rd cachedOf].
    destruct (is_undefined (cache s c)) eqn:Hu.
    + unfold bind.
      destruct (@defaults_ends (getInstance deps k) IH (deps c) s Hs)
        as [Hd Hs1].
      destruct (defaults (getInstance deps k) (deps c) s) as [r s1].
      cbn [fst snd] in *.
      destruct Hd as [-> | [[HnX HnY] [vs ->]]].
      * split; [now left | exact Hs1].
      * assert (HcX : c <> X) by (intros ->; contradiction).
        assert (HcY : c <> Y) by (intros ->; contradiction).
        unfold construct, ends. cbn.
        split; [right; split; eauto |].
        destruct Hs1 as [H1 H2]. split; cbn.
        -- now rewrite (proj2 (String.eqb_neq c X) HcX).
        -- now rewrite (proj2 (String.eqb_neq c Y) HcY).
    + unfold ends. cbn [fst snd]. split; [right | exact Hs].
      destruct Hs as [H1 H2].
      split; [split; intros -> | eauto]; congruence || simpl in *.
      * rewrite H1 in Hu. discriminate.
      * rewrite H2 in Hu. discriminate.
Qed.

(** With any depth of stack, resolving [X] exhausts it, and leaves
    neither class with an instance. *)
Lemma cycle_overflows (depth : nat) (s : state) :
  unresolved X Y s ->
  fst (getInstance deps depth X s) = Overflow /\
  unresolved X Y (snd (getInstance deps depth X s)).
Proof.
  intro Hs. destruct (@getInstance_ends depth X s Hs) as [[H | [[H _] _]] H2].
  - now split.
  - now contradiction H.
Qed.
End CycleFacts.

(** ** The tests of the repository, run on the model *)

(** "should not instantiate singletons more than once!": the three
    instances, resolved a second time, and the references they hold. *)
Example test_singletons :
  let run :=
    (serviceInstance <- Service_getInstance ;;
     dbInstance <- dependencies_getDb ;;
     repositoryInstance <- Repository_getInstance ;;
     serviceAgain <- Service_getInstance ;;
     dbAgain <- dependencies_getDb ;;
     repositoryAgain <- Repository_getInstance ;;
     ret [serviceInstance; serviceAgain; dbInstance; dbAgain;
          repositoryInstance; repositoryAgain]) (load []) in
  fst run = Ret [VRef 2; VRef 2; VRef 0; VRef 0; VRef 1; VRef 1] /\
  nth_error (heap (snd run)) 2 = Some (OService (VRef 1)) /\
  nth_error (heap (snd run)) 1 = Some (ORepository (VRef 0)) /\
  List.length (heap (snd run)) = 3.
Proof. repeat split. Qed.

(** "should use real instances when mocking is not employed" *)
Example test_real_row :
  fst (test_real 1 (load [])) = Ret (VRow [("id", Num 1); ("name", Str "test")]).
Proof. reflexivity. Qed.

(** "should allow mocking of the Database" *)
Example test_mock_db_row :
  fst (test_mock_db 1 (load [])) =
  Ret (VRow [("id", Num 2); ("name", Str "mocked")]).
Proof. reflexivity. Qed.

(** "should allowing mocking of the Repository": [getInstance] is replaced
    by a function that returns the mock, which is on the heap already. *)
Example test_mock_repository_row :
  let mocked3 := VRow [("id", Num 3); ("name", Str "mocked")] in
  let s := override Repository (fun h => (Ret (VRef 0), h))
                    (load [OMockRepository (fun _ => mocked3)]) in
  fst (test_real 1 s) = Ret mocked3.
Proof. reflexivity. Qed.

(** An override that comes after the service was resolved does not reach
    the service: it holds the repository that holds the real database. *)
Example override_after_resolution :
  let s1 := snd (Service_getInstance (load [])) in
  fst (test_real 1 (override Database mockedDb s1)) = Ret (VRow testRow).
Proof. reflexivity. Qed.

(** A database that cannot be had: the service is not built, nothing is
    cached, and once the database can be had the service is built on it. *)
Example failed_dependency_is_not_cached :
  let refused : M (list obj) value :=
    fun h => (Throw (VStr "connection refused"), h) in
  let run := Service_getInstance (override Database refused (load [])) in
  fst run = Throw (VStr "connection refused") /\
  heap (snd run) = [] /\
  (forall t, rd (cached t) (snd run) = VUndefined) /\
  fst (test_real 1 (override Database mockedDb (snd run))) =
    Ret (VRow mockedRow).
Proof. repeat split; now intros []. Qed.

(** The wiring table of the module, resolved by the table-driven
    [getInstance], builds the same three objects in the same order; with a
    stack too shallow for the three nested calls it does not. *)
Example app_wiring :
  (let run := Cycle.getInstance Cycle.app 3 "Service" Cycle.init in
   fst run = Ret (VRef 2) /\
   Cycle.instances (snd run) =
     [("Database", []); ("Repository", [VRef 0]); ("Service", [VRef 1])]) /\
  fst (Cycle.getInstance Cycle.app 2 "Service" Cycle.init) = Overflow.
Proof. repeat split. Qed.

(** * The claims *)

(** C1 - Singleton identity.  For every memoized resolver whose first
    resolution yields an instance [v] (any value but [undefined]), every
    further resolution returns the identical [v] and the factory has run
    exactly once, however many resolutions follow.  In the module, for
    [dependencies.getDb], [Repository.getInstance] and
    [Service.getInstance] alike: once the memoized resolver has returned a
    reference, any number of further calls returns the same reference and
    leaves the whole state, heap included, as it is, so nothing more is
    constructed. *)
Theorem singleton_identity :
  (forall (W : Type) (factory : M W value) (w w1 : W) (v : value) (n : nat),
      factory w = (Ret v, w1) -> v <> VUndefined ->
      calls (resolve (spy factory)) (S n) (register (spy factory) (0, w)) =
      (repeat (Ret v) (S n), (v, (1, w1)))) /\
  (forall (t : token) (s s1 : world) (v : value) (n : nat),
      slot t s = Memoized -> resolve_token t s = (Ret v, s1) ->
      calls (resolve_token t) n s1 = (repeat (Ret v) n, s1)).
Proof.
  split.
  - intros W factory w w1 v n Hf Hv. now apply resolve_once.
  - intros t s s1 v n Hs H. now apply (module_singleton t s).
Qed.

Lemma singleton_identity_witness :
  calls (resolve (spy (fun h : list nat => (Ret (VRef (List.length h)), h ++ [7]))))
        3 (register (spy (fun h : list nat =>
                            (Ret (VRef (List.length h)), h ++ [7]))) (0, [])) =
    (repeat (Ret (VRef 0)) 3, (VRef 0, (1, [7]))) /\
  calls (resolve_token Service) 2 (snd (Service_getInstance (load []))) =
    (repeat (Ret (VRef 2)) 2, snd (Service_getInstance (load []))).
Proof.
  split.
  - apply (proj1 singleton_identity (list nat)
             (fun h => (Ret (VRef (List.length h)), h ++ [7]))
             [] [7] (VRef 0) 2); [reflexivity | discriminate].
  - apply (proj2 singleton_identity Service (load [])
             (snd (Service_getInstance (load []))) (VRef 2) 2); reflexivity.
Defined.

(** C2 - Transitive override propagation.  In a module in which neither
    [Repository] nor [Service] has been resolved yet, overriding the
    database resolver with a stub whose [query] always returns
    [[{id: 2, name: 'mocked'}]] and then resolving [Service] gives a
    service whose [get(id)] returns [{id: 2, name: 'mocked'}]: the stub is
    reached through the unchanged [Service] and [Repository]. *)
Theorem override_reaches_service (s : world) (query : string -> list row)
        (id : Z) :
  slotRepository s = Memoized -> slotService s = Memoized ->
  cachedRepository s = VUndefined -> cachedService s = VUndefined ->
  (forall q, query q = [mockedRow]) ->
  fst (test_real id (override Database (alloc_in (ODatabase query)) s)) =
  Ret (VRow mockedRow).
Proof.
  intros HsR HsS HcR HcS Hq.
  set (s0 := override Database (alloc_in (ODatabase query)) s).
  apply (@test_real_through s0
           (with_heap (heap s ++ [ODatabase query]) s0)
           (VRef (List.length (heap s))) id [mockedRow]);
    try assumption.
  - reflexivity.
  - simpl. unfold Database_query. rewrite nth_error_end. now rewrite Hq.
Qed.

Lemma override_reaches_service_witness :
  fst (test_mock_db 1 (load [])) = Ret (VRow mockedRow).
Proof.
  apply (@override_reaches_service (load []) (fun _ => [mockedRow]) 1);
    reflexivity.
Defined.

(** C3 - The real path.  In the freshly loaded module, whatever is on the
    heap already, resolving [Service] and calling [get(id)] returns
    [{id: 1, name: 'test'}], for [id = 1] as for every other [id]. *)
Theorem real_path (h : list obj) (id : Z) :
  fst (test_real id (load h)) = Ret (VRow testRow).
Proof.
  apply (@test_real_through (load h)
           (World (h ++ [ODatabase realQuery]) Memoized Memoized Memoized
                  (VRef (List.length h)) VUndefined VUndefined)
           (VRef (List.length h)) id [testRow]);
    try reflexivity.
  simpl. unfold Database_query. now rewrite nth_error_end.
Qed.

(** C6 - Failed resolutions are not cached.  When the factory throws [e],
    the resolution throws the same [e] and [cached] is still [undefined];
    the next resolution invokes the factory again, and when the factory
    then returns [v], so does the resolution, which caches [v]. *)
Theorem failed_resolution_is_not_cached (W : Type) (factory : M W value)
        (w w1 : W) (e : value) (k : nat) :
  factory w = (Throw e, w1) ->
  resolve (spy factory) (register (spy factory) (k, w)) =
    (Throw e, (VUndefined, (S k, w1))) /\
  invocations (snd (resolve (spy factory) (VUndefined, (S k, w1)))) =
    S (S k) /\
  (forall v w2, factory w1 = (Ret v, w2) ->
     resolve (spy factory) (VUndefined, (S k, w1)) =
       (Ret v, (v, (S (S k), w2)))).
Proof.
  intro Hf. unfold register. repeat split.
  - now rewrite resolve_miss, spy_step, Hf.
  - rewrite resolve_miss, spy_step.
    now destruct (fst (factory w1)).
  - intros v w2 Hf2. now rewrite resolve_miss, spy_step, Hf2.
Qed.

Lemma failed_resolution_is_not_cached_witness :
  resolve (spy flaky) (register (spy flaky) (0, false)) =
    (Throw (VStr "not ready"), (VUndefined, (1, true))) /\
  resolve (spy flaky) (VUndefined, (1, true)) =
    (Ret (VNum 7), (VNum 7, (2, true))).
Proof.
  destruct (@failed_resolution_is_not_cached bool flaky false true
              (VStr "not ready") 0 eq_refl) as (H1 & _ & H3).
  split; [exact H1 | exact (H3 (VNum 7) true eq_refl)].
Defined.

(** C7 - Registration is lazy.  Building the memoized resolver leaves the
    world as it is, does not invoke the factory and caches nothing; the
    first resolution is what invokes the factory.  Loading the module
    builds its three resolvers and leaves the heap as it was, with no
    instance in any [cached]; the first [Service.getInstance()] is what
    puts the database, the repository and the service on the heap. *)
Theorem registration_is_lazy :
  (forall (W : Type) (factory : M W value) (k : nat) (w : W),
      snd (register (spy factory) (k, w)) = (k, w) /\
      rd (own (nat * W)) (register (spy factory) (k, w)) = VUndefined /\
      invocations (snd (resolve (spy factory)
                                (register (spy factory) (k, w)))) = S k) /\
  (forall h : list obj,
      heap (load h) = h /\
      (forall t, rd (cached t) (load h) = VUndefined) /\
      (forall t, slot t (load h) = Memoized) /\
      heap (snd (Service_getInstance (load h))) =
        h ++ [ODatabase realQuery; ORepository (VRef (List.length h));
              OService (VRef (S (List.length h)))]).
Proof.
  split.
  - intros W factory k w. repeat split.
    unfold register. rewrite resolve_miss, spy_step.
    now destruct (fst (factory w)).
  - intro h. repeat split; try (now intros []).
    rewrite (@wire_service (load h)
               (World (h ++ [ODatabase realQuery]) Memoized Memoized Memoized
                      (VRef (List.length h)) VUndefined VUndefined)
               (VRef (List.length h))); try reflexivity.
    simpl. rewrite length_app, <- app_assoc. simpl.
    now replace (List.length h + 1) with (S (List.length h)) by lia.
Qed.

(** C9 - The edge of the hand-written [memoize].  A result is kept in
    [cached] as it is, so it counts as cached exactly when it is not
    [undefined]: after a first call returned [v], the second call invokes
    the factory again if and only if [v] is [undefined].  A factory that
    always returns [undefined] is invoked at every call; a factory whose
    result is not [undefined] is invoked once, however many calls
    follow. *)
Theorem memoize_undefined_edge (W : Type) (factory : M W value) :
  (forall (w w1 : W) (v : value) (k : nat),
      factory w = (Ret v, w1) ->
      resolve (spy factory) (register (spy factory) (k, w)) =
        (Ret v, (v, (S k, w1))) /\
      (invocations (snd (calls (resolve (spy factory)) 2
                               (register (spy factory) (k, w)))) = S (S k)
       <-> v = VUndefined)) /\
  ((forall w, fst (factory w) = Ret VUndefined) ->
   forall (n k : nat) (w : W),
     fst (calls (resolve (spy factory)) n (register (spy factory) (k, w))) =
       repeat (Ret VUndefined) n /\
     invocations (snd (calls (resolve (spy factory)) n
                             (register (spy factory) (k, w)))) = k + n) /\
  (forall (w w1 : W) (v : value) (n k : nat),
      factory w = (Ret v, w1) -> v <> VUndefined ->
      fst (calls (resolve (spy factory)) (S n)
                 (register (spy factory) (k, w))) = repeat (Ret v) (S n) /\
      invocations (snd (calls (resolve (spy factory)) (S n)
                              (register (spy factory) (k, w)))) = S k).
Proof.
  split; [| split].
  - intros w w1 v k Hf. split; [| split].
    + unfold register. now rewrite resolve_miss, spy_step, Hf.
    + intro Hk. destruct v; try reflexivity;
        rewrite (@resolve_once W factory w w1 _ k 1 Hf) in Hk by discriminate;
        unfold invocations in Hk; simpl in Hk; lia.
    + intros ->. unfold register. cbn [calls].
      rewrite resolve_miss, spy_step, Hf. cbn [fst snd].
      rewrite resolve_miss, spy_step.
      now destruct (fst (factory w1)).
  - intros Hu n k w. split; now apply resolve_undefined_every_time.
  - intros w w1 v n k Hf Hv.
    now rewrite (@resolve_once W factory w w1 v k n Hf Hv).
Qed.

Lemma memoize_undefined_edge_witness :
  invocations (snd (calls (resolve (spy nothing)) 5
                          (register (spy nothing) (0, tt)))) = 5 /\
  invocations (snd (calls (resolve (spy zero)) 5
                          (register (spy zero) (0, tt)))) = 1 /\
  (invocations (snd (calls (resolve (spy nothing)) 2
                           (register (spy nothing) (0, tt)))) = 2
   <-> VUndefined = VUndefined).
Proof.
  destruct (@memoize_undefined_edge unit nothing) as (H1 & H2 & _).
  destruct (@memoize_undefined_edge unit zero) as (_ & _ & H3).
  split; [| split].
  - exact (proj2 (H2 (fun w => eq_refl) 5 0 tt)).
  - refine (proj2 (H3 tt tt (VNum 0) 4 0 eq_refl _)). discriminate.
  - exact (proj2 (H1 tt tt VUndefined 0 eq_refl)).
Defined.

(** C10 - Empty results.  On a repository whose database answers the query
    with no row, [Repository.get(id)] returns [undefined] and does not
    throw; in general it returns the first row of the answer, so it
    returns [undefined] exactly when the answer is empty; and
    [Service.get(id)] on a service that holds the repository returns what
    [Repository.get(id)] returns. *)
Theorem get_of_empty_result (h : list obj) (r d : loc)
        (query : string -> list row) (id : Z) :
  nth_error h r = Some (ORepository (VRef d)) ->
  nth_error h d = Some (ODatabase query) ->
  Repository_get h (VRef r) id = Ret (first_row (query (sql id))) /\
  (query (sql id) = [] -> Repository_get h (VRef r) id = Ret VUndefined) /\
  (Repository_get h (VRef r) id = Ret VUndefined <-> query (sql id) = []) /\
  (forall row0 rest, query (sql id) = row0 :: rest ->
                     Repository_get h (VRef r) id = Ret (VRow row0)) /\
  (forall sv, nth_error h sv = Some (OService (VRef r)) ->
              Service_get h (VRef sv) id = Repository_get h (VRef r) id).
Proof.
  intros Hr Hd.
  assert (E : Repository_get h (VRef r) id = Ret (first_row (query (sql id)))).
  { unfold Repository_get, Database_query. now rewrite Hr, Hd. }
  rewrite E. repeat split.
  - now intros ->.
  - destruct (query (sql id)); [reflexivity | discriminate].
  - now intros ->.
  - now intros row0 rest ->.
  - intros sv Hsv. unfold Service_get, invoke_get. now rewrite Hsv, Hr.
Qed.

Lemma get_of_empty_result_witness :
  Repository_get [ODatabase (fun _ => []); ORepository (VRef 0);
                  OService (VRef 1)] (VRef 1) 1 = Ret VUndefined /\
  Service_get [ODatabase (fun _ => []); ORepository (VRef 0);
               OService (VRef 1)] (VRef 2) 1 = Ret VUndefined.
Proof.
  destruct (@get_of_empty_result
              [ODatabase (fun _ => []); ORepository (VRef 0);
               OService (VRef 1)] 1 0 (fun _ => []) 1 eq_refl eq_refl)
    as (_ & H2 & _ & _ & H5).
  split; [exact (H2 eq_refl) |].
  rewrite (H5 2 eq_refl). exact (H2 eq_refl).
Defined.

(** C4 - Override isolation, on the module as it is.  The module has one
    scope, the module itself, and an override is an assignment to one of
    its resolver properties.  After the assignment the token resolves to
    what the replacement returns, whatever was cached before; the
    assignment changes that one property and nothing else: not the heap,
    not a [cached] variable (the instance the replaced resolver had built
    stays where it was), not another property.  No scope is left in which
    the token still resolves to the original instance. *)
Theorem override_replaces_in_place (t : token) (f : M (list obj) value)
        (s : world) :
  resolve_token t (override t f s) = on_heap f (override t f s) /\
  fst (resolve_token t (override t f s)) = fst (f (heap s)) /\
  heap (override t f s) = heap s /\
  (forall t', rd (cached t') (override t f s) = rd (cached t') s) /\
  (forall t', slot t' (override t f s) =
              if token_eqb t' t then Arrow f else slot t' s).
Proof.
  assert (E : resolve_token t (override t f s) = on_heap f (override t f s)).
  { rewrite resolve_token_call. apply call_arrow. now destruct t. }
  split; [exact E |]. split; [| split; [| split]].
  - rewrite E. unfold on_heap.
    replace (heap (override t f s)) with (heap s) by now destruct t.
    now destruct (f (heap s)).
  - now destruct t.
  - now destruct t; intros [].
  - now destruct t; intros [].
Qed.

(** C4, as the claim states it: in the loaded module the database is
    resolved, then overridden with the stub of the test; resolving it
    again gives the stub's object at location 1, not the original instance
    at location 0. *)
Lemma override_isolation_fails : ~ override_isolation.
Proof.
  intro H.
  specialize (H Database mockedDb (load [])
                (snd (dependencies_getDb (load []))) (VRef 0)
                eq_refl eq_refl).
  discriminate H.
Qed.

(** C5 - Cycles, on the code as it is.  When the constructor of [X]
    resolves [Y] and the constructor of [Y] resolves [X], and neither has
    an instance yet, resolving either of them exhausts the call stack
    whatever its depth: no instance is returned, no error that names the
    cycle is thrown, and neither class has an instance cached
    afterwards. *)
Theorem cycle_exhausts_the_stack (deps : Cycle.class -> list Cycle.class)
        (X Y : Cycle.class) (depth : nat) (s : Cycle.state) :
  In Y (deps X) -> In X (deps Y) -> Cycle.unresolved X Y s ->
  (fst (Cycle.getInstance deps depth X s) = Overflow /\
   Cycle.unresolved X Y (snd (Cycle.getInstance deps depth X s))) /\
  (fst (Cycle.getInstance deps depth Y s) = Overflow /\
   Cycle.unresolved X Y (snd (Cycle.getInstance deps depth Y s))).
Proof.
  intros HX HY Hs. split.
  - now apply cycle_overflows.
  - destruct (@cycle_overflows deps Y X HY HX depth s) as [H1 H2].
    + destruct Hs. now split.
    + split; [exact H1 |]. destruct H2. now split.
Qed.

Lemma cycle_exhausts_the_stack_witness :
  fst (Cycle.getInstance Cycle.xy 40 "X" Cycle.init) = Overflow /\
  fst (Cycle.getInstance Cycle.xy 40 "Y" Cycle.init) = Overflow.
Proof.
  destruct (@cycle_exhausts_the_stack Cycle.xy "X" "Y" 40 Cycle.init)
    as [[H1 _] [H2 _]].
  - simpl. now left.
  - simpl. now left.
  - split; reflexivity.
  - split; [exact H1 | exact H2].
Defined.

(** C5, as the claim states it: for two classes that default to each
    other, resolving either never ends with a thrown error, at any depth
    of the stack. *)
Lemma cycle_is_not_detected :
  ~ Cycle.detects_cycle Cycle.xy "X" /\ ~ Cycle.detects_cycle Cycle.xy "Y".
Proof.
  assert (HX : In "Y" (Cycle.xy "X")) by (simpl; now left).
  assert (HY : In "X" (Cycle.xy "Y")) by (simpl; now left).
  split; intros (depth & e & s & H).
  - destruct (@cycle_overflows Cycle.xy "X" "Y" HX HY depth Cycle.init)
      as [H1 _]; [split; reflexivity |].
    rewrite H in H1. discriminate H1.
  - destruct (@cycle_overflows Cycle.xy "Y" "X" HY HX depth Cycle.init)
      as [H1 _]; [split; reflexivity |].
    rewrite H in H1. discriminate H1.
Qed.

(** * Further properties of the module *)

Import Sessions.

Lemma built_step (h : list obj) (n : nat) (t : token) :
  n <= 3 ->
  resolve_token t (built h n) =
  (Ret (VRef (List.length h + rank t)), built h (Nat.max n (S (rank t)))).
Proof.
  intro Hn.
  assert (Hcases : n = 0 \/ n = 1 \/ n = 2 \/ n = 3) by lia.
  destruct Hcases as [-> | [-> | [-> | ->]]]; destruct t;
    unfold built, resolve_token, Service_getInstance, new_Service,
      Repository_getInstance, new_Repository, dependencies_getDb,
      getPlaceholderForRealDB, call, memoize, bind, alloc, on_heap,
      alloc_in, with_heap, graph; cbn;
    rewrite ?app_nil_r, ?length_app, <- ?app_assoc; cbn;
    rewrite ?Nat.add_0_r, ?Nat.add_1_r, ?(Nat.add_comm (List.length h) 2);
    reflexivity.
Qed.

Lemma built_0 (h : list obj) : built h 0 = load h.
Proof. unfold built, load. cbn. now rewrite app_nil_r. Qed.

Lemma resolve_each_built (h : list obj) (ts : list token) :
  forall n, n <= 3 ->
  resolve_each ts (built h n) =
  (Ret (map (fun t => VRef (List.length h + rank t)) ts),
   built h (Nat.max n (reached ts))).
Proof.
  induction ts as [| t rest IH]; intros n Hn.
  - cbn. now rewrite Nat.max_0_r.
  - cbn [resolve_each]. unfold bind at 1. rewrite (built_step h t Hn).
    unfold bind at 1. rewrite IH by (destruct t; cbn; lia).
    cbn [map reached fold_right]. fold (reached rest).
    now rewrite <- Nat.max_assoc.
Qed.

(** X1 - The order of resolutions does not matter.  In the freshly loaded
    module, whatever tokens are resolved, in whatever order and however
    often, every resolution of a token returns the same reference (the
    database, the repository and the service sit at the first, second and
    third free location), and at the end the heap holds, on top of what was
    there, exactly the part of the graph that the resolved tokens need:
    never a fourth object. *)
Theorem resolution_order_is_irrelevant (h : list obj) (ts : list token) :
  resolve_each ts (load h) =
  (Ret (map (fun t => VRef (List.length h + rank t)) ts),
   built h (reached ts)).
Proof.
  rewrite <- built_0. rewrite resolve_each_built by lia. reflexivity.
Qed.

(** X2 - Overrides come too late for a resolved service.  Once the
    memoized [Service.getInstance] holds an instance, assigning a
    replacement to the database or the repository resolver changes neither
    the instance it returns nor what [get] returns on it. *)
Theorem resolved_service_ignores_overrides (s : world) (t : token)
        (f : M (list obj) value) (id : Z) :
  t <> Service -> slotService s = Memoized ->
  cachedService s <> VUndefined ->
  Service_getInstance (override t f s) =
    (Ret (cachedService s), override t f s) /\
  fst (test_real id (override t f s)) = fst (test_real id s).
Proof.
  intros Ht Hs Hc.
  assert (E : forall s0, slotService s0 = Memoized ->
                         cachedService s0 <> VUndefined ->
                         Service_getInstance s0 = (Ret (cachedService s0), s0)).
  { intros s0 Hs0 Hc0. unfold Service_getInstance.
    rewrite (call_memoized Service _ s0 Hs0).
    now apply (memoize_hit (cached Service)). }
  assert (Hs' : slotService (override t f s) = Memoized)
    by (destruct t; [exact Hs | exact Hs | now contradiction Ht]).
  assert (Hc' : cachedService (override t f s) = cachedService s)
    by now destruct t.
  assert (Hh : heap (override t f s) = heap s) by now destruct t.
  split.
  - rewrite (E _ Hs') by now rewrite Hc'. now rewrite Hc'.
  - unfold test_real, bind. rewrite (E _ Hs') by now rewrite Hc'.
    rewrite (E _ Hs Hc). unfold get_of. cbn. now rewrite Hc', Hh.
Qed.

Lemma resolved_service_ignores_overrides_witness :
  fst (test_real 1 (override Database mockedDb
                      (snd (Service_getInstance (load []))))) =
  Ret (VRow testRow).
Proof.
  destruct (@resolved_service_ignores_overrides
              (snd (Service_getInstance (load []))) Database mockedDb 1)
    as [_ H]; [discriminate | reflexivity | discriminate |].
  rewrite H. reflexivity.
Defined.

(** X3 - A mocked repository keeps the database out.  When
    [Repository.getInstance] is replaced by a function that returns a mock
    and the service is not resolved yet, the service that is then resolved
    answers [get(id)] with what the mock answers; resolving it builds the
    service and nothing else, and the database and repository resolvers of
    the module are never run: their [cached] variables stay as they
    were. *)
Theorem mocked_repository_bypasses_database (s : world) (m : loc)
        (get : Z -> value) (id : Z) :
  slotService s = Memoized -> cachedService s = VUndefined ->
  nth_error (heap s) m = Some (OMockRepository get) ->
  fst (test_real id (override Repository (returning (VRef m)) s)) =
    Ret (get id) /\
  heap (snd (test_real id (override Repository (returning (VRef m)) s))) =
    heap s ++ [OService (VRef m)] /\
  cachedDb (snd (test_real id (override Repository (returning (VRef m)) s))) =
    cachedDb s /\
  cachedRepository
    (snd (test_real id (override Repository (returning (VRef m)) s))) =
    cachedRepository s.
Proof.
  intros Hs Hc Hm.
  unfold test_real, bind, Service_getInstance, call. cbn. rewrite Hs.
  unfold memoize. cbn. rewrite Hc. cbn.
  unfold Service_get. rewrite nth_error_end.
  unfold invoke_get.
  rewrite nth_error_app1 by (apply nth_error_Some; congruence).
  rewrite Hm. repeat split.
Qed.

Lemma mocked_repository_bypasses_database_witness :
  fst (test_real 1 (override Repository (returning (VRef 0))
                      (load [OMockRepository (fun _ => VNum 3)]))) =
  Ret (VNum 3).
Proof.
  apply (@mocked_repository_bypasses_database
           (load [OMockRepository (fun _ => VNum 3)]) 0 (fun _ => VNum 3) 1);
    reflexivity.
Defined.

Lemma arrow_alloc_step (t : token) (o : obj) (s : world) (h : list obj) :
  resolve_token t (with_heap h (override t (alloc_in o) s)) =
  (Ret (VRef (List.length h)),
   with_heap (h ++ [o]) (override t (alloc_in o) s)).
Proof.
  rewrite resolve_token_call.
  rewrite (@call_arrow t (original t) _ (alloc_in o)) by now destruct t.
  reflexivity.
Qed.

Lemma calls_arrow_alloc (t : token) (o : obj) (s : world) (n : nat) :
  forall h : list obj,
    calls (resolve_token t) n (with_heap h (override t (alloc_in o) s)) =
    (map (fun i => Ret (VRef (List.length h + i))) (seq 0 n),
     with_heap (h ++ repeat o n) (override t (alloc_in o) s)).
Proof.
  induction n as [| n IH]; intro h.
  - cbn. now rewrite app_nil_r.
  - cbn [calls]. rewrite arrow_alloc_step, IH, <- app_assoc.
    cbn [app repeat seq map].
    rewrite Nat.add_0_r, <- seq_shift, map_map, length_app. cbn.
    f_equal. f_equal. apply map_ext. intro i. do 2 f_equal. lia.
Qed.

(** X4 - A replacement is not a singleton.  After a resolver is replaced
    by an arrow function that builds an object, as the mock-db test does
    with [dependencies.getDb = () => ({ query: ... })], every call of the
    resolver builds one more object: [n] calls return [n] different
    references and leave [n] objects on the heap. *)
Theorem replacement_is_not_memoized (t : token) (o : obj) (s : world)
        (n : nat) :
  calls (resolve_token t) n (override t (alloc_in o) s) =
  (map (fun i => Ret (VRef (List.length (heap s) + i))) (seq 0 n),
   with_heap (heap s ++ repeat o n) (override t (alloc_in o) s)).
Proof.
  rewrite <- (calls_arrow_alloc t o s n (heap s)).
  f_equal. now destruct t, s.
Qed.

(** X5 - A database that cannot be had.  When the function assigned to
    [dependencies.getDb] throws [e] and neither the repository nor the
    service is resolved, [Service.getInstance()] throws the same [e]; no
    repository and no service is built or cached, so the state is the one
    the throwing function left. *)
Theorem failing_database_fails_the_service (s : world)
        (f : M (list obj) value) (e : value) (h1 : list obj) :
  slotRepository s = Memoized -> slotService s = Memoized ->
  cachedRepository s = VUndefined -> cachedService s = VUndefined ->
  f (heap s) = (Throw e, h1) ->
  Service_getInstance (override Database f s) =
  (Throw e, with_heap h1 (override Database f s)).
Proof.
  intros HsR HsS HcR HcS Hf.
  unfold Service_getInstance, call. cbn. rewrite HsS.
  unfold memoize. cbn. rewrite HcS. cbn.
  unfold new_Service, bind, Repository_getInstance, call. cbn. rewrite HsR.
  unfold memoize. cbn. rewrite HcR. cbn.
  unfold new_Repository, bind, dependencies_getDb, call, on_heap. cbn.
  now rewrite Hf.
Qed.

Lemma failing_database_fails_the_service_witness :
  fst (Service_getInstance
         (override Database (fun h => (Throw (VStr "refused"), h))
                   (load []))) = Throw (VStr "refused").
Proof.
  rewrite (@failing_database_fails_the_service (load [])
             (fun h => (Throw (VStr "refused"), h)) (VStr "refused") []);
    reflexivity.
Defined.

(** X6 - The wiring is not checked.  When the function assigned to
    [dependencies.getDb] returns something that is no object at all
    ([undefined], [null], a number, a string), the repository and the
    service are built on it all the same and [Service.getInstance()]
    returns; it is [get] that throws a [TypeError]. *)
Theorem wiring_is_not_checked (s : world) (v : value) (id : Z) :
  slotRepository s = Memoized -> slotService s = Memoized ->
  cachedRepository s = VUndefined -> cachedService s = VUndefined ->
  (forall l, v <> VRef l) ->
  fst (Service_getInstance (override Database (returning v) s)) =
    Ret (VRef (S (List.length (heap s)))) /\
  fst (test_real id (override Database (returning v) s)) = Throw typeError.
Proof.
  intros HsR HsS HcR HcS Hv.
  set (s0 := override Database (returning v) s).
  assert (Hdb : dependencies_getDb s0 = (Ret v, s0)) by now destruct s.
  assert (Hw := @wire_service s0 s0 v HsR HsS HcR HcS Hdb).
  split.
  - now rewrite Hw.
  - unfold test_real, bind. rewrite Hw. unfold get_of. cbn [fst snd heap].
    unfold Service_get. rewrite nth_error_end1.
    unfold invoke_get. rewrite nth_error_end.
    unfold Repository_get. rewrite nth_error_end.
    destruct v; try reflexivity. now contradiction (Hv l).
Qed.

Lemma wiring_is_not_checked_witness :
  fst (Service_getInstance (override Database (returning VUndefined)
                                     (load []))) = Ret (VRef 1) /\
  fst (test_real 1 (override Database (returning VUndefined) (load []))) =
    Throw typeError.
Proof.
  apply (@wiring_is_not_checked (load []) VUndefined 1);
    try reflexivity; discriminate.
Defined.

(** * Further properties of wirings *)

Section WiringFacts.
Import Cycle Wiring.
Variable deps : class -> list class.

Lemma reach_trans (a b c : class) :
  reach deps a b -> reach deps b c -> reach deps a c.
Proof.
  intros Hab Hbc. induction Hab as [a | a d b Hd Hdb IH]; [assumption |].
  apply (@reach_step deps a d c Hd). now apply IH.
Qed.

(** A class on a cycle defaults to a class on a cycle. *)
Lemma on_cycle_step (c : class) :
  on_cycle deps c -> exists d, In d (deps c) /\ on_cycle deps d.
Proof.
  intros (d & Hd & Hdc). exists d. split; [assumption |].
  inversion Hdc as [c0 | d0 x c0 Hx Hxc]; subst.
  - exists c. split; [assumption | constructor].
  - exists x. split; [assumption |].
    apply (reach_trans Hxc). apply (@reach_step deps c d d Hd). constructor.
Qed.

Lemma defaults_finishes (getInstance : class -> M state value) :
  (forall c s, cycles_unresolved deps s ->
               finishes deps (getInstance c s) (~ on_cycle deps c)) ->
  forall ds s, cycles_unresolved deps s ->
               finishes deps (defaults getInstance ds s)
                        (forall d, In d ds -> ~ on_cycle deps d).
Proof.
  intros Hcall ds. induction ds as [| d rest IH]; intros s Hs.
  - split; [right | exact Hs]. cbn. split; [tauto | eauto].
  - cbn [defaults]. unfold bind at 1.
    destruct (Hcall d s Hs) as [Hd Hs1].
    destruct (getInstance d s) as [r s1]. cbn [fst snd] in *.
    destruct Hd as [-> | [Hnd [v ->]]].
    + split; [now left | exact Hs1].
    + unfold bind at 1. destruct (IH s1 Hs1) as [Hr Hs2].
      destruct (defaults getInstance rest s1) as [r2 s2].
      cbn [fst snd] in *.
      destruct Hr as [-> | [Hrest [vs ->]]].
      * split; [now left | exact Hs2].
      * split; [right | exact Hs2]. unfold ret. cbn [fst].
        split; [| eauto]. intros d0 [<- | H0]; auto.
Qed.

Lemma getInstance_finishes (depth : nat) :
  forall c s, cycles_unresolved deps s ->
              finishes deps (getInstance deps depth c s) (~ on_cycle deps c).
Proof.
  induction depth as [| k IH]; intros c s Hs.
  - split; [now left | exact Hs].
  - cbn [getInstance]. unfold memoize. cbn [rd cachedOf].
    destruct (is_undefined (cache s c)) eqn:Hu.
    + unfold bind.
      destruct (@defaults_finishes (getInstance deps k) IH (deps c) s Hs)
        as [Hd Hs1].
      destruct (defaults (getInstance deps k) (deps c) s) as [r s1].
      cbn [fst snd] in *.
      destruct Hd as [-> | [Hclear [vs ->]]].
      * split; [now left | exact Hs1].
      * assert (Hc : ~ on_cycle deps c).
        { intro H. destruct (on_cycle_step H) as (d & Hd & Hcd).
          exact (Hclear d Hd Hcd). }
        unfold construct, finishes. cbn.
        split; [right; split; eauto |].
        intros x Hx. cbn.
        destruct (String.eqb_spec c x) as [-> | Hne];
          [now contradiction Hc | now apply Hs1].
    + unfold finishes. cbn [fst snd]. split; [right | exact Hs].
      split; [| eauto]. intro H. rewrite (Hs c H) in Hu. discriminate.
Qed.

(** What was cached stays cached, and stays the same. *)
Lemma defaults_stable (getInstance : class -> M state value) (x : class) :
  (forall c s, cache s x <> VUndefined ->
               cache (snd (getInstance c s)) x = cache s x) ->
  forall ds s, cache s x <> VUndefined ->
               cache (snd (defaults getInstance ds s)) x = cache s x.
Proof.
  intros Hcall ds. induction ds as [| d rest IH]; intros s Hx; [reflexivity |].
  cbn [defaults]. unfold bind at 1.
  pose proof (Hcall d s Hx) as H1.
  destruct (getInstance d s) as [[v | e | ] s1]; cbn [snd] in *;
    try assumption.
  unfold bind at 1.
  assert (Hx1 : cache s1 x <> VUndefined) by now rewrite H1.
  pose proof (IH s1 Hx1) as H2.
  destruct (defaults getInstance rest s1) as [[vs | e | ] s2]; cbn in *;
    congruence.
Qed.

Lemma getInstance_stable (x : class) (depth : nat) :
  forall c s, cache s x <> VUndefined ->
              cache (snd (getInstance deps depth c s)) x = cache s x.
Proof.
  induction depth as [| k IH]; intros c s Hx; [reflexivity |].
  cbn [getInstance]. unfold memoize. cbn [rd cachedOf].
  destruct (is_undefined (cache s c)) eqn:Hu; [| reflexivity].
  unfold bind.
  pose proof (@defaults_stable (getInstance deps k) x IH (deps c) s Hx) as H1.
  destruct (defaults (getInstance deps k) (deps c) s) as [[vs | e | ] s1];
    cbn [snd] in *; try assumption.
  cbn. destruct (String.eqb_spec c x) as [-> | Hne]; [| assumption].
  apply not_undefined in Hx. congruence.
Qed.

(** Resolving a class touches the [cached] of classes it reaches only. *)
Lemma defaults_frame (getInstance : class -> M state value) (x : class) :
  (forall c s, ~ reach deps c x ->
               cache (snd (getInstance c s)) x = cache s x) ->
  forall ds s, (forall d, In d ds -> ~ reach deps d x) ->
               cache (snd (defaults getInstance ds s)) x = cache s x.
Proof.
  intros Hcall ds. induction ds as [| d rest IH]; intros s Hds; [reflexivity |].
  cbn [defaults]. unfold bind at 1.
  pose proof (Hcall d s (Hds d (or_introl eq_refl))) as H1.
  destruct (getInstance d s) as [[v | e | ] s1]; cbn [snd] in *;
    try assumption.
  unfold bind at 1.
  pose proof (IH s1 (fun d0 H0 => Hds d0 (or_intror H0))) as H2.
  destruct (defaults getInstance rest s1) as [[vs | e | ] s2]; cbn in *;
    congruence.
Qed.

Lemma getInstance_frame (x : class) (depth : nat) :
  forall c s, ~ reach deps c x ->
              cache (snd (getInstance deps depth c s)) x = cache s x.
Proof.
  induction depth as [| k IH]; intros c s Hx; [reflexivity |].
  cbn [getInstance]. unfold memoize. cbn [rd cachedOf].
  destruct (is_undefined (cache s c)) eqn:Hu; [| reflexivity].
  unfold bind.
  assert (Hds : forall d, In d (deps c) -> ~ reach deps d x).
  { intros d Hd Hdx. apply Hx. now apply (@reach_step deps c d x). }
  pose proof (@defaults_frame (getInstance deps k) x IH (deps c) s Hds) as H1.
  destruct (defaults (getInstance deps k) (deps c) s) as [[vs | e | ] s1];
    cbn [snd] in *; try assumption.
  cbn. destruct (String.eqb_spec c x) as [-> | Hne]; [| assumption].
  contradiction Hx. constructor.
Qed.
End WiringFacts.

Section WiredFacts.
Import Cycle Wiring.
Variable deps : class -> list class.

(** What [getInstance] returns is what the class has cached from then on,
    and it is not [undefined]. *)
Lemma getInstance_ret (depth : nat) (c : class) (s s1 : state) (v : value) :
  getInstance deps depth c s = (Ret v, s1) ->
  cache s1 c = v /\ v <> VUndefined.
Proof.
  destruct depth as [| k]; [discriminate |].
  cbn [getInstance]. unfold memoize. cbn [rd cachedOf].
  destruct (is_undefined (cache s c)) eqn:Hu.
  - unfold bind.
    destruct (defaults (getInstance deps k) (deps c) s) as [[vs | e | ] s0];
      try discriminate.
    cbn. rewrite String.eqb_refl. intro H. inversion H; subst. cbn.
    rewrite String.eqb_refl. split; [reflexivity | discriminate].
  - intro H. inversion H; subst. split; [reflexivity |].
    now apply not_undefined.
Qed.

(** The values handed to a constructor are the cached instances of the
    classes it defaults to. *)
Lemma defaults_values (k : nat) (ds : list class) :
  forall (s s1 : state) (vs : list value),
    defaults (getInstance deps k) ds s = (Ret vs, s1) ->
    vs = map (cache s1) ds /\ (forall d, In d ds -> cache s1 d <> VUndefined).
Proof.
  induction ds as [| d rest IH]; intros s s1 vs.
  - cbn. intro H. inversion H; subst. split; [reflexivity | intros d []].
  - cbn [defaults]. unfold bind at 1.
    destruct (getInstance deps k d s) as [[v | e | ] sa] eqn:Ed;
      try discriminate.
    unfold bind at 1.
    destruct (defaults (getInstance deps k) rest sa) as [[vs' | e | ] sb]
      eqn:Er; try discriminate.
    unfold ret. intro H. inversion H; subst.
    destruct (IH _ _ _ Er) as [Hvs Hall].
    destruct (getInstance_ret _ _ _ Ed) as [Hv Hnu].
    assert (Hd : cache s1 d = v).
    { pose proof (@defaults_stable (getInstance deps k) d
                    (@getInstance_stable deps d k) rest sa) as Hst.
      rewrite Er in Hst. cbn [snd] in Hst. rewrite Hst; congruence. }
    split.
    + cbn. now rewrite Hd, Hvs.
    + intros d0 [<- | H0]; [congruence | now apply Hall].
Qed.

Lemma construct_wired (s1 : state) (c : class) (vs : list value) :
  wired deps s1 -> cache s1 c = VUndefined ->
  vs = map (cache s1) (deps c) ->
  (forall d, In d (deps c) -> cache s1 d <> VUndefined) ->
  wired deps
    (State (fun c' => if String.eqb c c'
                      then VRef (List.length (instances s1))
                      else cache s1 c')
           (instances s1 ++ [(c, vs)])).
Proof.
  intros [W1 W2] Hc Hvs Hall.
  assert (Hother : forall d, cache s1 d <> VUndefined ->
                             String.eqb c d = false).
  { intros d Hd. apply String.eqb_neq. intros ->. contradiction. }
  assert (Hmap : forall ds, (forall d, In d ds -> cache s1 d <> VUndefined) ->
                            map (cache s1) ds =
                            map (fun c' => if String.eqb c c'
                                           then VRef (List.length (instances s1))
                                           else cache s1 c') ds).
  { intros ds Hds. apply map_ext_in. intros d Hd.
    now rewrite (Hother d (Hds d Hd)). }
  split; cbn [cache instances].
  - intros i c0 f0 H.
    destruct (Nat.lt_ge_cases i (List.length (instances s1))) as [Hi | Hi].
    + rewrite nth_error_app1 in H by assumption.
      destruct (W1 _ _ _ H) as (H1 & H2 & H3).
      assert (Hc0 : cache s1 c0 <> VUndefined) by (rewrite H1; discriminate).
      rewrite (Hother c0 Hc0). split; [assumption |]. split.
      * rewrite H2. now apply Hmap.
      * intros d Hd. rewrite (Hother d (H3 d Hd)). now apply H3.
    + rewrite nth_error_app2 in H by assumption.
      destruct (i - List.length (instances s1)) as [| j] eqn:Ej.
      * cbn in H. inversion H; subst c0 f0.
        rewrite String.eqb_refl. split; [f_equal; lia |]. split.
        -- rewrite Hvs. now apply Hmap.
        -- intros d Hd. rewrite (Hother d (Hall d Hd)). now apply Hall.
      * cbn in H. destruct j; discriminate.
  - intros x Hx. destruct (String.eqb_spec c x) as [E | Hne].
    + subst x. exists (List.length (instances s1)), vs.
      split; [reflexivity |]. apply nth_error_end.
    + destruct (W2 x Hx) as (i & f & H1 & H2).
      exists i, f. split; [assumption |].
      rewrite nth_error_app1; [assumption |].
      apply nth_error_Some. congruence.
Qed.

Lemma defaults_wired (getInstance : class -> M state value) :
  (forall c s, wired deps s -> cycles_unresolved deps s ->
               wired deps (snd (getInstance c s)) /\
               cycles_unresolved deps (snd (getInstance c s))) ->
  forall ds s, wired deps s -> cycles_unresolved deps s ->
               wired deps (snd (defaults getInstance ds s)).
Proof.
  intros Hcall ds. induction ds as [| d rest IH]; intros s Hw Hu;
    [assumption |].
  cbn [defaults]. unfold bind at 1.
  destruct (Hcall d s Hw Hu) as [Hw1 Hu1].
  destruct (getInstance d s) as [[v | e | ] s1]; cbn [snd] in *;
    try assumption.
  unfold bind at 1. pose proof (IH s1 Hw1 Hu1) as Hw2.
  destruct (defaults getInstance rest s1) as [[vs | e | ] s2]; cbn in *;
    assumption.
Qed.

(** Every resolution, however it ends, keeps instances and [cached]
    variables in agreement. *)
Lemma getInstance_wired (depth : nat) :
  forall c s, wired deps s -> cycles_unresolved deps s ->
              wired deps (snd (getInstance deps depth c s)).
Proof.
  induction depth as [| k IH]; intros c s Hw Hu; [assumption |].
  cbn [getInstance]. unfold memoize. cbn [rd cachedOf].
  destruct (is_undefined (cache s c)) eqn:Hc; [| assumption].
  unfold bind.
  assert (Hcall : forall c0 s0,
             wired deps s0 -> cycles_unresolved deps s0 ->
             wired deps (snd (getInstance deps k c0 s0)) /\
             cycles_unresolved deps (snd (getInstance deps k c0 s0))).
  { intros c0 s0 Hw0 Hu0. split; [now apply IH |].
    apply (@getInstance_finishes deps k c0 s0 Hu0). }
  pose proof (@defaults_wired (getInstance deps k) Hcall (deps c) s Hw Hu)
    as Hw1.
  destruct (@defaults_finishes deps (getInstance deps k)
              (@getInstance_finishes deps k) (deps c) s Hu) as [Hend _].
  pose proof (@defaults_frame deps (getInstance deps k) c
                (@getInstance_frame deps c k) (deps c) s) as Hframe.
  destruct (defaults (getInstance deps k) (deps c) s) as [[vs | e | ] s1]
    eqn:E; cbn [fst snd] in *; try assumption.
  destruct Hend as [Habs | [Hclear _]]; [discriminate |].
  assert (Hnc : ~ on_cycle deps c).
  { intro H. destruct (on_cycle_step H) as (d & Hd & Hcd).
    exact (Hclear d Hd Hcd). }
  assert (Hc1 : cache s1 c = VUndefined).
  { rewrite Hframe.
    - destruct (cache s c); try discriminate. reflexivity.
    - intros d Hd Hdc. apply Hnc. exists d. now split. }
  destruct (defaults_values _ _ _ E) as [Hvs Hall].
  unfold construct. cbn.
  now apply construct_wired.
Qed.

Lemma serve_wired (requests : list (nat * class)) :
  forall s, wired deps s -> cycles_unresolved deps s ->
            wired deps (serve deps requests s) /\
            cycles_unresolved deps (serve deps requests s).
Proof.
  induction requests as [| [depth c] rest IH]; intros s Hw Hu; [now split |].
  cbn [serve]. apply IH.
  - now apply getInstance_wired.
  - apply (@getInstance_finishes deps depth c s Hu).
Qed.

Lemma init_wired : wired deps init /\ cycles_unresolved deps init.
Proof.
  split; [split |].
  - intros i c fields H. destruct i; discriminate.
  - intros c H. now contradiction H.
  - now intros c _.
Qed.
End WiredFacts.

(** X7 - Cycles of any length.  A class that needs itself, directly or
    through any number of other classes, cannot be resolved: whatever was
    resolved before and whatever the depth of the stack, resolving it
    exhausts the stack and leaves the class without an instance. *)
Theorem any_cycle_exhausts_the_stack
        (deps : Cycle.class -> list Cycle.class)
        (requests : list (nat * Cycle.class)) (c : Cycle.class)
        (depth : nat) :
  Wiring.on_cycle deps c ->
  fst (Cycle.getInstance deps depth c
         (Wiring.serve deps requests Cycle.init)) = Overflow /\
  Cycle.cache (snd (Cycle.getInstance deps depth c
                      (Wiring.serve deps requests Cycle.init))) c =
    VUndefined.
Proof.
  intro Hc.
  destruct (init_wired deps) as [Hw Hu].
  destruct (@serve_wired deps requests Cycle.init Hw Hu) as [_ Hu1].
  destruct (@getInstance_finishes deps depth c _ Hu1) as [[H | [H _]] H2].
  - split; [assumption | now apply H2].
  - now contradiction H.
Qed.

Lemma any_cycle_exhausts_the_stack_witness :
  fst (Cycle.getInstance Wiring.ring 30 "A" Cycle.init) = Overflow.
Proof.
  apply (@any_cycle_exhausts_the_stack Wiring.ring [] "A" 30).
  exists "B". split; [now left |].
  apply (@Wiring.reach_step Wiring.ring "B" "C" "A"); [now left |].
  apply (@Wiring.reach_step Wiring.ring "C" "A" "A"); [now left |].
  constructor.
Defined.

(** X8 - Nothing is built twice.  Whatever the wiring, cyclic or not, and
    whatever sequence of [getInstance] calls a program makes, with
    whatever depth of stack, the instances that exist are of different
    classes: no class is ever constructed a second time. *)
Theorem no_class_is_built_twice (deps : Cycle.class -> list Cycle.class)
        (requests : list (nat * Cycle.class)) :
  NoDup (map fst (Cycle.instances (Wiring.serve deps requests Cycle.init))).
Proof.
  destruct (init_wired deps) as [Hw Hu].
  destruct (@serve_wired deps requests Cycle.init Hw Hu) as [[W1 _] _].
  apply NoDup_nth_error. intros i j Hi Hij.
  rewrite !nth_error_map in Hij. rewrite length_map in Hi.
  destruct (nth_error (Cycle.instances (Wiring.serve deps requests Cycle.init)) i)
    as [[c f] |] eqn:Ei; [| apply nth_error_None in Ei; lia].
  destruct (nth_error (Cycle.instances (Wiring.serve deps requests Cycle.init)) j)
    as [[c' f'] |] eqn:Ej; [| discriminate].
  cbn in Hij. inversion Hij; subst c'.
  destruct (W1 _ _ _ Ei) as [H1 _]. destruct (W1 _ _ _ Ej) as [H2 _].
  congruence.
Qed.

(** X9 - Dependencies are shared.  After any sequence of [getInstance]
    calls, the fields of every instance are exactly what the classes it
    defaults to have cached, and each of those is in turn the instance of
    its class: two classes that depend on the same class hold the same
    reference. *)
Theorem instances_share_dependencies
        (deps : Cycle.class -> list Cycle.class)
        (requests : list (nat * Cycle.class)) (i : nat) (c : Cycle.class)
        (fields : list value) :
  nth_error (Cycle.instances (Wiring.serve deps requests Cycle.init)) i =
    Some (c, fields) ->
  fields = map (Cycle.cache (Wiring.serve deps requests Cycle.init)) (deps c) /\
  (forall d, In d (deps c) ->
     exists j fd,
       Cycle.cache (Wiring.serve deps requests Cycle.init) d = VRef j /\
       nth_error (Cycle.instances (Wiring.serve deps requests Cycle.init)) j =
         Some (d, fd)).
Proof.
  intro H.
  destruct (init_wired deps) as [Hw Hu].
  destruct (@serve_wired deps requests Cycle.init Hw Hu) as [[W1 W2] _].
  destruct (W1 _ _ _ H) as (_ & Hf & Hd).
  split; [assumption |]. intros d Hin. apply W2. now apply Hd.
Qed.

Lemma instances_share_dependencies_witness :
  Cycle.instances (Wiring.serve Wiring.diamond [(3, "App")] Cycle.init) =
    [("Pool", []); ("Left", [VRef 0]); ("Right", [VRef 0]);
     ("App", [VRef 1; VRef 2])] /\
  [VRef 0] =
    map (Cycle.cache (Wiring.serve Wiring.diamond [(3, "App")] Cycle.init))
        (Wiring.diamond "Right").
Proof.
  split; [reflexivity |].
  apply (@instances_share_dependencies Wiring.diamond [(3, "App")] 2
           "Right" [VRef 0]).
  reflexivity.
Defined.

Lemma defaults_return (getInstance : Cycle.class -> M Cycle.state value)
      (ds : list Cycle.class) :
  (forall d s, In d ds -> exists v, fst (getInstance d s) = Ret v) ->
  forall s, exists vs, fst (Cycle.defaults getInstance ds s) = Ret vs.
Proof.
  induction ds as [| d rest IH]; intros Hall s.
  - cbn. eauto.
  - cbn [Cycle.defaults]. unfold bind at 1.
    destruct (Hall d s (or_introl eq_refl)) as [v Hv].
    destruct (getInstance d s) as [r s1]. cbn [fst] in Hv. subst r.
    unfold bind at 1.
    destruct (IH (fun d0 s0 H0 => Hall d0 s0 (or_intror H0)) s1) as [vs Hvs].
    destruct (Cycle.defaults getInstance rest s1) as [r2 s2].
    cbn [fst] in Hvs. subst r2. cbn. eauto.
Qed.

(** X10 - Wirings without a cycle resolve.  When the classes can be
    ranked so that every class ranks above the classes its constructor
    defaults to, a stack deeper than the rank of a class is enough:
    [getInstance] returns an instance, from any state. *)
Theorem acyclic_wiring_resolves (deps : Cycle.class -> list Cycle.class)
        (height : Cycle.class -> nat) (c : Cycle.class) (depth : nat)
        (s : Cycle.state) :
  (forall a b, In b (deps a) -> height b < height a) ->
  height c < depth ->
  exists v, fst (Cycle.getInstance deps depth c s) = Ret v /\
            v <> VUndefined.
Proof.
  intro Hrank. revert c s.
  induction depth as [| k IH]; intros c s Hc; [lia |].
  cbn [Cycle.getInstance]. unfold memoize. cbn [rd Cycle.cachedOf].
  destruct (is_undefined (Cycle.cache s c)) eqn:Hu.
  - unfold bind.
    destruct (@defaults_return (Cycle.getInstance deps k) (deps c)) with (s := s)
      as [vs Hvs].
    { intros d s0 Hd. destruct (IH d s0) as (v & Hv & _); [| eauto].
      specialize (Hrank c d Hd). lia. }
    destruct (Cycle.defaults (Cycle.getInstance deps k) (deps c) s)
      as [r s1].
    cbn [fst] in Hvs. subst r. cbn. rewrite String.eqb_refl.
    eexists. split; [reflexivity | discriminate].
  - cbn. eexists. split; [reflexivity |]. now apply not_undefined.
Qed.

Lemma acyclic_wiring_resolves_witness :
  exists v, fst (Cycle.getInstance Wiring.diamond 3 "App" Cycle.init) = Ret v /\
            v <> VUndefined.
Proof.
  apply (@acyclic_wiring_resolves Wiring.diamond Wiring.diamond_height
           "App" 3 Cycle.init); [| cbn; lia].
  intros a b. unfold Wiring.diamond, Wiring.diamond_height.
  destruct (String.eqb_spec a "App") as [-> | _].
  - intros [<- | [<- | []]]; cbn; lia.
  - destruct (String.eqb_spec a "Left") as [-> | _].
    + intros [<- | []]; cbn; lia.
    + destruct (String.eqb_spec a "Right") as [-> | _].
      * intros [<- | []]; cbn; lia.
      * intros [].
Defined.

(** * Properties of the flashcard application *)

Section FlashcardFacts.
Import RubyRecall.
Open Scope Z_scope.

Lemma earliest_spec (rows : list flashcard) :
  match earliest rows with
  | None => rows = []
  | Some m => In m rows /\
              forall c, In c rows -> review_due_at m <= review_due_at c
  end.
Proof.
  induction rows as [| c rest IH]; [reflexivity |].
  cbn [earliest]. destruct (earliest rest) as [m |].
  - destruct IH as [Hin Hmin].
    destruct (Z.ltb_spec (review_due_at m) (review_due_at c)).
    + split; [now right |]. intros c0 [<- | H0]; [lia | now apply Hmin].
    + split; [now left |]. intros c0 [<- | H0]; [lia |].
      specialize (Hmin c0 H0). lia.
  - subst rest. split; [now left |]. intros c0 [<- | []]. lia.
Qed.

Lemma due_spec (now : Z) (c : flashcard) :
  due now c = true <-> review_due_at c <= now.
Proof. unfold due. apply Z.leb_le. Qed.

Lemma next_due_facts (now : Z) (table : list flashcard) (card : flashcard) :
  next_due now table = Some card ->
  In card table /\ review_due_at card <= now.
Proof.
  unfold next_due. intro E.
  pose proof (earliest_spec (filter (due now) table)) as H.
  rewrite E in H. destruct H as [Hin _]. apply filter_In in Hin.
  destruct Hin as [Hin Hdue]. split; [assumption | now apply due_spec].
Qed.

(** X11 - [next_due] returns the earliest card that is due.  It returns
    [nil] exactly when every card is due later than now; the card it
    returns is a row of the table, is due, and no due card is due
    earlier. *)
Theorem next_due_is_the_earliest_due (now : Z) (table : list flashcard) :
  (next_due now table = None <->
   forall c, In c table -> now < review_due_at c) /\
  (forall card, next_due now table = Some card ->
     In card table /\ review_due_at card <= now /\
     forall c, In c table -> review_due_at c <= now ->
               review_due_at card <= review_due_at c).
Proof.
  unfold next_due. pose proof (earliest_spec (filter (due now) table)) as H.
  destruct (earliest (filter (due now) table)) as [m |].
  - destruct H as [Hin Hmin]. apply filter_In in Hin.
    destruct Hin as [Hin Hdue]. apply due_spec in Hdue. split.
    + split; [discriminate |]. intro Hall. specialize (Hall m Hin). lia.
    + intros card E. inversion E; subst card.
      split; [assumption |]. split; [assumption |].
      intros c Hc Hd. apply Hmin. apply filter_In. split; [assumption |].
      now apply due_spec.
  - split; [| discriminate]. split; [| reflexivity].
    intros _ c Hc.
    destruct (Z.lt_ge_cases now (review_due_at c)) as [Hlt | Hge];
      [assumption |].
    assert (Hf : In c (filter (due now) table)).
    { apply filter_In. split; [assumption |]. apply due_spec. lia. }
    rewrite H in Hf. contradiction.
Qed.

Lemma next_due_is_the_earliest_due_witness :
  next_due 100 [Flashcard 1 "1a" "1b" 0 90; Flashcard 2 "2a" "2b" 0 50;
                Flashcard 3 "3a" "3b" 0 200] =
    Some (Flashcard 2 "2a" "2b" 0 50) /\
  review_due_at (Flashcard 2 "2a" "2b" 0 50) <= 100.
Proof.
  split; [reflexivity |].
  apply (proj2 (next_due_is_the_earliest_due 100
                  [Flashcard 1 "1a" "1b" 0 90; Flashcard 2 "2a" "2b" 0 50;
                   Flashcard 3 "3a" "3b" 0 200])
               (Flashcard 2 "2a" "2b" 0 50) eq_refl).
Defined.

Lemma replay_app (h1 h2 : list (Z * bool)) (c : flashcard) :
  replay (h1 ++ h2) c = replay h2 (replay h1 c).
Proof. unfold replay. apply fold_left_app. Qed.

Lemma replay_correct (times : list Z) :
  forall c,
    correct_guess_streak (replay (map (fun t => (t, true)) times) c) =
    (correct_guess_streak c + List.length times)%nat.
Proof.
  induction times as [| t rest IH]; intro c; cbn; [lia |].
  unfold replay in IH. rewrite IH. cbn. lia.
Qed.

Lemma replay_correct_last (c : flashcard) (times : list Z) (t : Z) :
  correct_guess_streak
    (replay (map (fun t0 => (t0, true)) times ++ [(t, true)]) c) =
    (correct_guess_streak c + List.length times + 1)%nat /\
  review_due_at
    (replay (map (fun t0 => (t0, true)) times ++ [(t, true)]) c) =
    t + day * 2 ^ Z.of_nat (correct_guess_streak c + List.length times).
Proof.
  rewrite replay_app. cbn. rewrite replay_correct. split; [lia | reflexivity].
Qed.

(** X12 - The spacing doubles.  After a run of correct guesses, the card
    is due again [2 ^ k] days after the last guess, where [k] is the
    streak the card had before that guess: each correct guess doubles the
    wait, and the streak counts the guesses. *)
Theorem spacing_doubles (c : flashcard) (times : list Z) (t : Z) :
  correct_guess_streak
    (replay (map (fun t0 => (t0, true)) times ++ [(t, true)]) c) =
    (correct_guess_streak c + List.length times + 1)%nat /\
  review_due_at
    (replay (map (fun t0 => (t0, true)) times ++ [(t, true)]) c) =
    t + day * 2 ^ Z.of_nat (correct_guess_streak c + List.length times).
Proof.
  rewrite replay_app. cbn. rewrite replay_correct. split; [lia | reflexivity].
Qed.

(** X13 - A miss forgets the history.  Whatever happened to a card before,
    after an incorrect guess it is due an hour later with a streak of 0,
    and after [n] further correct guesses and one more at time [t] it is
    due [2 ^ n] days after [t]. *)
Theorem miss_resets_the_spacing (c : flashcard) (history : list (Z * bool))
        (t0 : Z) (times : list Z) (t : Z) :
  review_due_at (replay (history ++ [(t0, false)]) c) = t0 + hour /\
  correct_guess_streak (replay (history ++ [(t0, false)]) c) = 0%nat /\
  review_due_at
    (replay (history ++ (t0, false)
               :: map (fun t1 => (t1, true)) times ++ [(t, true)]) c) =
    t + day * 2 ^ Z.of_nat (List.length times).
Proof.
  rewrite !replay_app. split; [reflexivity |]. split; [reflexivity |].
  change ((t0, false) :: map (fun t1 => (t1, true)) times ++ [(t, true)])
    with ([(t0, false)] ++ (map (fun t1 => (t1, true)) times ++ [(t, true)])).
  rewrite replay_app.
  destruct (replay_correct_last
              (replay [(t0, false)] (replay history c)) times t) as [_ H].
  now rewrite H.
Qed.

Lemma rescheduled_later (now : Z) (guessed : bool) (c : flashcard) :
  now + hour <=
  review_due_at (if guessed then schedule_after_correct_guess now c
                 else schedule_after_incorrect_guess now c).
Proof.
  destruct guessed;
    unfold schedule_after_correct_guess, schedule_after_incorrect_guess;
    cbn [review_due_at]; [| lia].
  assert (0 < 2 ^ Z.of_nat (correct_guess_streak c))
    by (apply Z.pow_pos_nonneg; lia).
  unfold day, hour. lia.
Qed.

Lemma rescheduled_id (now : Z) (guessed : bool) (c : flashcard) :
  id (if guessed then schedule_after_correct_guess now c
      else schedule_after_incorrect_guess now c) = id c.
Proof. now destruct guessed. Qed.

(** X14 - An answered card rests.  Once a card has been answered at time
    [now], correctly or not, [next_due] does not return a card with its id
    at any time earlier than an hour after [now]. *)
Theorem answered_card_rests (table : list flashcard) (c : flashcard)
        (now : Z) (guessed : bool) (later : Z) (card : flashcard) :
  later < now + hour ->
  next_due later (answer now guessed c table) = Some card ->
  id card <> id c.
Proof.
  intros Hlater Hnext.
  destruct (next_due_facts _ _ Hnext) as (Hin & Hdue).
  unfold answer, save in Hin. apply in_map_iff in Hin.
  destruct Hin as (r & Hr & _). rewrite rescheduled_id in Hr.
  destruct (Nat.eqb_spec (id r) (id c)) as [E | Hne].
  - subst card. pose proof (rescheduled_later now guessed c). lia.
  - now subst card.
Qed.

Lemma answered_card_rests_witness :
  id (Flashcard 2 "2a" "2b" 0 50) <> id (Flashcard 1 "1a" "1b" 0 40).
Proof.
  apply (@answered_card_rests
           [Flashcard 1 "1a" "1b" 0 40; Flashcard 2 "2a" "2b" 0 50]
           (Flashcard 1 "1a" "1b" 0 40) 100 true 3699
           (Flashcard 2 "2a" "2b" 0 50)); [unfold hour; lia | reflexivity].
Defined.

Lemma save_absent (c : flashcard) (table : list flashcard) :
  ~ In (id c) (map id table) -> save c table = table.
Proof.
  unfold save.
  induction table as [| r rest IH]; intro H; [reflexivity |].
  cbn [map] in *. destruct (Nat.eqb_spec (id r) (id c)) as [E | _].
  - contradiction H. now left.
  - rewrite IH; [reflexivity |]. intro H0. apply H. now right.
Qed.

Lemma save_ids (c : flashcard) (table : list flashcard) :
  map id (save c table) = map id table.
Proof.
  unfold save. rewrite map_map. apply map_ext. intro r.
  now destruct (Nat.eqb_spec (id r) (id c)).
Qed.

Lemma save_retires (now : Z) (card card1 : flashcard) :
  id card1 = id card -> due now card = true -> due now card1 = false ->
  forall table,
    NoDup (map id table) -> In card table ->
    (List.length (filter (due now) (save card1 table)) + 1)%nat =
    List.length (filter (due now) table).
Proof.
  intros Hid Hdue Hrest table.
  induction table as [| r rest IH]; intros Hnd Hin; [contradiction |].
  cbn [map] in Hnd. inversion Hnd as [| x l Hx Hnd1]; subst.
  change (save card1 (r :: rest))
    with ((if Nat.eqb (id r) (id card1) then card1 else r)
            :: save card1 rest).
  rewrite Hid. cbn [filter].
  destruct (Nat.eqb_spec (id r) (id card)) as [E | Hne].
  - assert (r = card).
    { destruct Hin as [H | H]; [assumption |].
      contradiction Hx. rewrite E. now apply in_map. }
    subst r. rewrite Hrest, Hdue. cbn [List.length].
    rewrite save_absent by now rewrite Hid. lia.
  - destruct Hin as [H | H]; [now subst r |].
    specialize (IH Hnd1 H).
    destruct (due now r); cbn [List.length]; lia.
Qed.

Lemma practice_round_retires (now : Z) (guessed : bool)
      (table table1 : list flashcard) :
  NoDup (map id table) -> practice_round now guessed table = Some table1 ->
  map id table1 = map id table /\
  (List.length (filter (due now) table1) + 1)%nat =
  List.length (filter (due now) table).
Proof.
  intros Hnd. unfold practice_round.
  destruct (next_due now table) as [card |] eqn:E; [| discriminate].
  intro H. inversion H; subst table1.
  destruct (next_due_facts _ _ E) as (Hin & Hdue).
  split; [apply save_ids |].
  unfold answer. apply (@save_retires now card); try assumption.
  - apply rescheduled_id.
  - now apply due_spec.
  - unfold due. apply Z.leb_gt.
    pose proof (rescheduled_later now guessed card). unfold hour in *. lia.
Qed.

(** X15 - Practice ends.  On a stopped clock, with every card under an id
    of its own, each round of practice makes one due card not due and no
    other card due: after the rounds played for a list of answers, the
    number of due cards has gone down by the number of answers, or to
    none.  So a session shows each due card once and ends after as many
    rounds as there were due cards, whatever the answers. *)
Theorem practice_ends (now : Z) (answers : list bool)
        (table : list flashcard) :
  NoDup (map id table) ->
  List.length (filter (due now) (practice now answers table)) =
    (List.length (filter (due now) table) - List.length answers)%nat /\
  ((List.length (filter (due now) table) <= List.length answers)%nat ->
   next_due now (practice now answers table) = None).
Proof.
  intro Hnd.
  assert (Hcount :
            List.length (filter (due now) (practice now answers table)) =
            (List.length (filter (due now) table) - List.length answers)%nat).
  { revert table Hnd.
    induction answers as [| guessed rest IH]; intros table Hnd;
      cbn [practice List.length]; [lia |].
    destruct (practice_round now guessed table) as [table1 |] eqn:E.
    - destruct (@practice_round_retires now guessed table table1 Hnd E)
        as [Hids Hlen].
      rewrite IH by now rewrite Hids. lia.
    - unfold practice_round in E.
      destruct (next_due now table) as [card |] eqn:En; [discriminate |].
      unfold next_due in En.
      pose proof (earliest_spec (filter (due now) table)) as Hs.
      rewrite En in Hs. rewrite Hs. reflexivity. }
  split; [exact Hcount |]. intro Hle. unfold next_due.
  destruct (filter (due now) (practice now answers table)) as [| c l];
    [reflexivity |].
  cbn [List.length] in Hcount. lia.
Qed.

Lemma practice_ends_witness :
  next_due 100
    (practice 100 [true; false]
       [Flashcard 1 "1a" "1b" 0 90; Flashcard 2 "2a" "2b" 3 50;
        Flashcard 3 "3a" "3b" 0 200]) = None.
Proof.
  apply (@practice_ends 100 [true; false]
           [Flashcard 1 "1a" "1b" 0 90; Flashcard 2 "2a" "2b" 3 50;
            Flashcard 3 "3a" "3b" 0 200]).
  - repeat constructor; cbn; intuition discriminate.
  - cbn. lia.
Defined.

Lemma next_index_mod (size k : nat) :
  (0 < size)%nat ->
  next_index size (k mod size) = (S k mod size)%nat.
Proof.
  intro Hs. unfold next_index.
  pose proof (Nat.mod_upper_bound k size ltac:(lia)) as Hr.
  replace (S k) with (k + 1)%nat by lia.
  rewrite (Nat.Div0.add_mod k 1 size).
  destruct (Nat.leb_spec size (k mod size + 1)) as [Hwrap | Hstay].
  - assert (Hone : (size = 1 \/ 1 < size)%nat) by lia.
    destruct Hone as [-> | Hbig].
    + now rewrite !Nat.mod_1_r.
    + rewrite (Nat.mod_small 1 size) by lia.
      replace (k mod size + 1)%nat with size by lia.
      now rewrite Nat.Div0.mod_same.
  - assert (Hbig : (1 < size)%nat) by lia.
    rewrite (Nat.mod_small 1 size) by lia.
    now rewrite (Nat.mod_small (k mod size + 1) size) by lia.
Qed.

(** X16 - The first version walks round the deck.  With at least one
    card, the index of the card shown after [n] rounds is [n] modulo the
    number of cards: the index never leaves the deck, the cards come in
    order, and after the last card comes the first. *)
Theorem index_walks_round_the_deck (size n : nat) :
  (0 < size)%nat ->
  index_after size n = (n mod size)%nat /\ (index_after size n < size)%nat.
Proof.
  intro Hs.
  assert (E : index_after size n = (n mod size)%nat).
  { induction n as [| k IH]; cbn [index_after].
    - now rewrite Nat.Div0.mod_0_l.
    - rewrite IH. now apply next_index_mod. }
  split; [exact E |]. rewrite E. apply Nat.mod_upper_bound. lia.
Qed.

Lemma index_walks_round_the_deck_witness :
  index_after 3 7 = 1%nat /\ (index_after 3 7 < 3)%nat.
Proof.
  destruct (@index_walks_round_the_deck 3 7) as [H1 H2]; [lia |].
  split; [rewrite H1; reflexivity | exact H2].
Defined.

(** The test "should schedule cards progressively further into the future
    after consecutive correct guesses", for a card created, and due at
    once, at a time [T]. *)
Example test_progressive_schedule :
  let T := 1717804800 in
  let table0 := [Flashcard 1 "1a" "1b" 0 T] in
  let table1 := practice T [true] table0 in
  let table2 := practice (T + day) [true] table1 in
  next_due T table0 <> None /\
  next_due (T + day - 1) table1 = None /\
  next_due (T + day) table1 <> None /\
  next_due (T + day + (2 * day - 1)) table2 = None /\
  next_due (T + day + 2 * day) table2 <> None.
Proof. vm_compute. repeat split; discriminate. Qed.
End FlashcardFacts.
